(** * NEON SNAKE: the game logic of [App.tsx], embedded and verified

    The development follows the source file by file:
    - [types.ts]: [Point], [Snake], [Direction], [GameStatus];
    - [constants.ts]: [GRID_SIZE], the speeds, [INITIAL_SNAKE], [KEY_MAP];
    - [App.tsx]: the helpers [getRandomPosition] and [isOppositeDirection],
      the callbacks [gameOver], [moveSnake], [handleDirection],
      [handleKeyDown], [startGame] and the effects of the component.

    Modelling conventions.

    - JavaScript numbers that the game only ever uses as small integers
      (coordinates, score, tick interval) are [Z].  The high score is
      the one number that comes from outside ([parseInt] of a stored
      string), so it is a [JSNumber], which has [NaN].
    - A state of the model is a *committed* render of the component:
      the values held by the [useState] cells once React has rendered
      and run the effects.  [snakeRef], [directionRef] and [speedRef]
      are assigned by the three synchronising effects only, so in a
      committed render they hold the rendered [snake], [direction] and
      [speed]; the model reads the state fields where the source reads
      these refs.  [lastProcessedDirectionRef] is written by the
      callbacks themselves and is a field of its own.
    - The [moveSnake] closure captures [food] and [status]; the
      start/stop effect re-arms the timer with the closure of the latest
      render whenever one of them changes, so the closure a timeout runs
      sees the committed [food] and [status].  Events (key presses,
      pointer presses, timeouts) are taken one at a time, each in a
      committed render; the order in which the browser and React
      interleave timer tasks with renders is not modelled.
    - [localStorage] is read once, when the component mounts; what the
      component writes to it does not come back within a session and is
      left out.
    - [Math.random] is an oracle: the sequence of the numbers it returns,
      with a cursor threaded through the calls.  The rejection loop of
      [getRandomPosition] is bounded by fuel; [None] is "no answer
      within that many rounds". *)

From Stdlib Require Import ZArith QArith Qround List Bool Lia String Ascii.
From Stdlib Require Import Permutation.
From Stdlib Require DecimalString DecimalNat.
Import ListNotations.

Local Open Scope Z_scope.

(** ** types.ts *)

Inductive Direction : Set := UP | DOWN | LEFT | RIGHT.

Inductive GameStatus : Set := IDLE | PLAYING | PAUSED | GAME_OVER.

Record Point : Set := mkPoint { x : Z; y : Z }.

Definition Snake : Set := list Point.

(** A JavaScript number, as far as the high score needs it. *)
Inductive JSNumber : Set :=
| Num (n : Z)
| NaN.

Definition Direction_eqb (a b : Direction) : bool :=
  match a, b with
  | UP, UP | DOWN, DOWN | LEFT, LEFT | RIGHT, RIGHT => true
  | _, _ => false
  end.

Definition GameStatus_eqb (a b : GameStatus) : bool :=
  match a, b with
  | IDLE, IDLE | PLAYING, PLAYING | PAUSED, PAUSED | GAME_OVER, GAME_OVER => true
  | _, _ => false
  end.

(** [seg.x === p.x && seg.y === p.y] *)
Definition samePoint (seg p : Point) : bool :=
  (x seg =? x p) && (y seg =? y p).

(** [a > b] on numbers: every comparison with [NaN] is false. *)
Definition js_gt (a b : JSNumber) : bool :=
  match a, b with
  | Num m, Num n => n <? m
  | _, _ => false
  end.

(** [Object.is] on numbers, the comparison React applies to effect
    dependencies: [NaN] is the same value as [NaN]. *)
Definition js_is (a b : JSNumber) : bool :=
  match a, b with
  | Num m, Num n => m =? n
  | NaN, NaN => true
  | _, _ => false
  end.

(** ** constants.ts *)

Definition GRID_SIZE : Z := 20.
Definition INITIAL_SPEED : Z := 150.
Definition MIN_SPEED : Z := 60.
Definition SPEED_DECREMENT : Z := 2.

Definition INITIAL_SNAKE : Snake :=
  [ mkPoint 10 10; mkPoint 10 11; mkPoint 10 12 ].

Definition INITIAL_DIRECTION : Direction := UP.

Local Open Scope string_scope.

(** [KEY_MAP[key]]: the twelve entries of the table, [None] for
    [undefined].  (Names inherited from [Object.prototype] are not key
    names a keyboard event carries.) *)
Definition KEY_MAP (key : string) : option Direction :=
  if String.eqb key "ArrowUp" then Some UP
  else if String.eqb key "w" then Some UP
  else if String.eqb key "W" then Some UP
  else if String.eqb key "ArrowDown" then Some DOWN
  else if String.eqb key "s" then Some DOWN
  else if String.eqb key "S" then Some DOWN
  else if String.eqb key "ArrowLeft" then Some LEFT
  else if String.eqb key "a" then Some LEFT
  else if String.eqb key "A" then Some LEFT
  else if String.eqb key "ArrowRight" then Some RIGHT
  else if String.eqb key "d" then Some RIGHT
  else if String.eqb key "D" then Some RIGHT
  else None.

Local Close Scope string_scope.

(** ** The random oracle *)

(** The [i]-th number returned by [Math.random()]. *)
Definition Random : Type := nat -> Q.

(** [Math.random] returns a number in the half-open interval from 0 to 1. *)
Definition unitDraws (rnd : Random) : Prop :=
  forall i, (0 <= rnd i)%Q /\ (rnd i < 1)%Q.

(** [Math.floor(Math.random() * GRID_SIZE)] for the draw [r]. *)
Definition randomCoordinate (r : Q) : Z :=
  Qfloor (r * inject_Z GRID_SIZE).

(** ** App.tsx: helpers *)

(** [snake.some((seg) => seg.x === newPos.x && seg.y === newPos.y)] *)
Definition onSnake (body : Snake) (newPos : Point) : bool :=
  existsb (fun seg => samePoint seg newPos) body.

(** The position proposed in round [n] of the loop when the cursor of
    the oracle stood at [k] on entry: two draws per round, [x] first. *)
Definition proposal (rnd : Random) (k n : nat) : Point :=
  {| x := randomCoordinate (rnd (k + 2 * n)%nat);
     y := randomCoordinate (rnd (k + 2 * n + 1)%nat) |}.

(** [getRandomPosition]: the [while (true)] loop, at most [fuel] rounds.
    The result carries the cursor after the draws consumed. *)
Fixpoint getRandomPosition (fuel : nat) (rnd : Random) (k : nat) (body : Snake)
  : option (Point * nat) :=
  match fuel with
  | O => None
  | S fuel' =>
      let newPos := {| x := randomCoordinate (rnd k);
                       y := randomCoordinate (rnd (k + 1)%nat) |} in
      if negb (onSnake body newPos) then Some (newPos, (k + 2)%nat)
      else getRandomPosition fuel' rnd (k + 2)%nat body
  end.

Definition isOppositeDirection (dir1 dir2 : Direction) : bool :=
  if Direction_eqb dir1 UP && Direction_eqb dir2 DOWN then true
  else if Direction_eqb dir1 DOWN && Direction_eqb dir2 UP then true
  else if Direction_eqb dir1 LEFT && Direction_eqb dir2 RIGHT then true
  else if Direction_eqb dir1 RIGHT && Direction_eqb dir2 LEFT then true
  else false.

(** ** App.tsx: the component state *)

Record App : Set := mkApp {
  snake : Snake;
  food : Point;
  direction : Direction;
  status : GameStatus;
  score : Z;
  highScore : JSNumber;
  speed : Z;
  lastProcessedDirection : Direction   (* lastProcessedDirectionRef.current *)
}.

Definition setSnake (v : Snake) (s : App) : App :=
  mkApp v (food s) (direction s) (status s) (score s) (highScore s) (speed s)
        (lastProcessedDirection s).
Definition setFood (v : Point) (s : App) : App :=
  mkApp (snake s) v (direction s) (status s) (score s) (highScore s) (speed s)
        (lastProcessedDirection s).
Definition setDirection (v : Direction) (s : App) : App :=
  mkApp (snake s) (food s) v (status s) (score s) (highScore s) (speed s)
        (lastProcessedDirection s).
Definition setStatus (v : GameStatus) (s : App) : App :=
  mkApp (snake s) (food s) (direction s) v (score s) (highScore s) (speed s)
        (lastProcessedDirection s).
Definition setScore (v : Z) (s : App) : App :=
  mkApp (snake s) (food s) (direction s) (status s) v (highScore s) (speed s)
        (lastProcessedDirection s).
Definition setHighScore (v : JSNumber) (s : App) : App :=
  mkApp (snake s) (food s) (direction s) (status s) (score s) v (speed s)
        (lastProcessedDirection s).
Definition setSpeed (v : Z) (s : App) : App :=
  mkApp (snake s) (food s) (direction s) (status s) (score s) (highScore s) v
        (lastProcessedDirection s).
Definition setLastProcessedDirection (v : Direction) (s : App) : App :=
  mkApp (snake s) (food s) (direction s) (status s) (score s) (highScore s)
        (speed s) v.

(** The values of the [useState] cells in the first render. *)
Definition firstRender : App :=
  {| snake := INITIAL_SNAKE;
     food := mkPoint 15 15;
     direction := INITIAL_DIRECTION;
     status := IDLE;
     score := 0;
     highScore := Num 0;
     speed := INITIAL_SPEED;
     lastProcessedDirection := INITIAL_DIRECTION |}.

(** ** App.tsx: loading the stored high score *)

(** The code units [parseInt] skips at the start of its input, among
    those below 256: tab, line feed, vertical tab, form feed, carriage
    return, space and the no-break space. *)
Definition isWhiteSpace (c : ascii) : bool :=
  let n := nat_of_ascii c in
  ((n =? 9) || (n =? 10) || (n =? 11) || (n =? 12) || (n =? 13)
   || (n =? 32) || (n =? 160))%nat.

Fixpoint trimStart (str : string) : string :=
  match str with
  | String c rest => if isWhiteSpace c then trimStart rest else str
  | EmptyString => EmptyString
  end.

Definition digitValue (c : ascii) : option Z :=
  let n := nat_of_ascii c in
  if ((48 <=? n) && (n <=? 57))%nat then Some (Z.of_nat (n - 48)) else None.

(** The value of the longest prefix of decimal digits, read left to
    right with [acc] the value so far; [None] when there is no digit. *)
Fixpoint parseDigits (str : string) (acc : option Z) : option Z :=
  match str with
  | String c rest =>
      match digitValue c with
      | Some d =>
          parseDigits rest
            (Some (10 * match acc with Some a => a | None => 0 end + d))
      | None => acc
      end
  | EmptyString => acc
  end.

(** [parseInt(str, 10)]: leading white space, an optional sign, then the
    longest run of decimal digits; [NaN] when that run is empty.  (The
    model has one zero: JavaScript's [-0] compares and prints like [0].) *)
Definition parseInt (str : string) : JSNumber :=
  let trimmed := trimStart str in
  let '(sign, rest) :=
    match trimmed with
    | String "-"%char r => (-1, r)
    | String "+"%char r => (1, r)
    | _ => (1, trimmed)
    end in
  match parseDigits rest None with
  | Some m => Num (sign * m)
  | None => NaN
  end.

(** [if (stored) setHighScore(parseInt(stored, 10))], where [stored] is
    the result of [localStorage.getItem]: [None] for [null]; the empty
    string is falsy too. *)
Definition loadHighScore (stored : option string) (s : App) : App :=
  match stored with
  | Some (String _ _ as str) => setHighScore (parseInt str) s
  | _ => s
  end.

(** ** App.tsx: effects *)

(** The "Update High Score" effect body. *)
Definition updateHighScore (s : App) : App :=
  if js_gt (Num (score s)) (highScore s) then setHighScore (Num (score s)) s
  else s.

(** Committing the render [next] after the render [prev]: the high-score
    effect runs when one of its dependencies [score], [highScore]
    changed.  (Its own [setHighScore] leads to one more render, in which
    the test [score > highScore] is false.) *)
Definition commit (prev next : App) : App :=
  if (score next =? score prev) && js_is (highScore next) (highScore prev)
  then next
  else updateHighScore next.

Definition commitResult (prev : App) (r : option (App * nat))
  : option (App * nat) :=
  match r with
  | Some (next, k) => Some (commit prev next, k)
  | None => None
  end.

(** The mount effect: load the high score, then place the first food. *)
Definition mount (fuel : nat) (rnd : Random) (k : nat) (stored : option string)
  : option (App * nat) :=
  let s1 := loadHighScore stored firstRender in
  match getRandomPosition fuel rnd k INITIAL_SNAKE with
  | Some (newPos, k') => Some (commit firstRender (setFood newPos s1), k')
  | None => None
  end.

(** ** App.tsx: game logic *)

Definition gameOver (s : App) : App := setStatus GAME_OVER s.

(** The head one cell further along [currentDir]. *)
Definition advance (currentHead : Point) (currentDir : Direction) : Point :=
  match currentDir with
  | UP => {| x := x currentHead; y := y currentHead - 1 |}
  | DOWN => {| x := x currentHead; y := y currentHead + 1 |}
  | LEFT => {| x := x currentHead - 1; y := y currentHead |}
  | RIGHT => {| x := x currentHead + 1; y := y currentHead |}
  end.

(** The wall test of [moveSnake]. *)
Definition hitsWall (newHead : Point) : bool :=
  (x newHead <? 0) || (x newHead >=? GRID_SIZE)
  || (y newHead <? 0) || (y newHead >=? GRID_SIZE).

(** [Array.prototype.some] with a callback that takes the index. *)
Fixpoint someFrom {A : Type} (f : A -> nat -> bool) (index : nat) (l : list A)
  : bool :=
  match l with
  | [] => false
  | seg :: rest => f seg index || someFrom f (S index) rest
  end.

(** The self-collision test of [moveSnake]: the last index is skipped. *)
Definition hitsSelf (body : Snake) (newHead : Point) : bool :=
  someFrom
    (fun seg index =>
       if (index =? List.length body - 1)%nat then false
       else samePoint seg newHead)
    0 body.

(** [Array.prototype.pop], for the array that is left. *)
Definition pop (l : Snake) : Snake := removelast l.

(** One run of the [moveSnake] callback.  On an empty snake the source
    reads [undefined] as the head, builds a head without numeric
    coordinates, finds no collision and no food, and pops that head
    again: the snake stays empty. *)
Definition moveSnake (fuel : nat) (rnd : Random) (k : nat) (s : App)
  : option (App * nat) :=
  if negb (GameStatus_eqb (status s) PLAYING) then Some (s, k)
  else
    let currentDir := direction s in
    let s0 := setLastProcessedDirection currentDir s in
    match snake s with
    | [] => Some (setSnake [] s0, k)
    | currentHead :: _ =>
        let newHead := advance currentHead currentDir in
        if hitsWall newHead then Some (gameOver s0, k)
        else if hitsSelf (snake s) newHead then Some (gameOver s0, k)
        else
          let isEating := samePoint newHead (food s) in
          let newSnake := newHead :: snake s in
          if isEating then
            match getRandomPosition fuel rnd k newSnake with
            | Some (newFood, k') =>
                Some (setSnake newSnake
                        (setFood newFood
                           (setSpeed (Z.max MIN_SPEED (speed s0 - SPEED_DECREMENT))
                              (setScore (score s0 + 10) s0))), k')
            | None => None
            end
          else Some (setSnake (pop newSnake) s0, k)
    end.

(** One tick: the timeout runs [moveSnake], React commits the result. *)
Definition tick (fuel : nat) (rnd : Random) (k : nat) (s : App)
  : option (App * nat) :=
  commitResult s (moveSnake fuel rnd k s).

(** ** App.tsx: controls *)

Definition handleDirection (newDir : Direction) (s : App) : App :=
  if negb (isOppositeDirection newDir (lastProcessedDirection s))
  then setDirection newDir s
  else s.

Definition startGame (fuel : nat) (rnd : Random) (k : nat) (s : App)
  : option (App * nat) :=
  let s1 := setSnake INITIAL_SNAKE s in
  let s2 := setDirection INITIAL_DIRECTION s1 in
  let s3 := setLastProcessedDirection INITIAL_DIRECTION s2 in
  let s4 := setScore 0 s3 in
  let s5 := setSpeed INITIAL_SPEED s4 in
  match getRandomPosition fuel rnd k INITIAL_SNAKE with
  | Some (newFood, k') => Some (setStatus PLAYING (setFood newFood s5), k')
  | None => None
  end.

(** The [keydown] listener; [status] is the one of the render [s] the
    listener was installed in, for every test of the handler. *)
Definition handleKeyDown (fuel : nat) (rnd : Random) (k : nat)
  (key code : string) (s : App) : option (App * nat) :=
  let s1 :=
    match KEY_MAP key with
    | Some mappedDir =>
        let s' := handleDirection mappedDir s in
        if GameStatus_eqb (status s) IDLE then setStatus PLAYING s' else s'
    | None => s
    end in
  if String.eqb code "Space"%string then
    match status s with
    | PLAYING => Some (setStatus PAUSED s1, k)
    | PAUSED => Some (setStatus PLAYING s1, k)
    | GAME_OVER | IDLE => startGame fuel rnd k s1
    end
  else Some (s1, k).

(** ** The component as a transition system *)

Inductive Event : Set :=
| KeyDown (key code : string)   (* window keydown *)
| DPad (d : Direction)          (* pointer down on a D-pad button *)
| StartButton                   (* click on START GAME or TRY AGAIN *)
| Timeout.                      (* the pending game-loop timeout fires *)

(** What can happen in a committed render: the start buttons exist in
    the IDLE and GAME_OVER overlays only, and the start/stop effect
    keeps a timeout pending in PLAYING only. *)
Definition enabled (e : Event) (s : App) : bool :=
  match e with
  | KeyDown _ _ | DPad _ => true
  | StartButton =>
      GameStatus_eqb (status s) IDLE || GameStatus_eqb (status s) GAME_OVER
  | Timeout => GameStatus_eqb (status s) PLAYING
  end.

Definition dispatch (fuel : nat) (rnd : Random) (k : nat) (e : Event) (s : App)
  : option (App * nat) :=
  match e with
  | KeyDown key code => commitResult s (handleKeyDown fuel rnd k key code s)
  | DPad d => Some (commit s (handleDirection d s), k)
  | StartButton => commitResult s (startGame fuel rnd k s)
  | Timeout => tick fuel rnd k s
  end.

(** The committed renders the component can be in. *)
Inductive reachable : App -> Prop :=
| reach_mount (rnd : Random) (fuel k : nat) (stored : option string) s k' :
    unitDraws rnd ->
    mount fuel rnd k stored = Some (s, k') ->
    reachable s
| reach_event (rnd : Random) (fuel k : nat) (e : Event) s s' k' :
    reachable s ->
    unitDraws rnd ->
    enabled e s = true ->
    dispatch fuel rnd k e s = Some (s', k') ->
    reachable s'.

(** The renders of one game: from a render onwards, as long as nothing
    is dispatched in a GAME_OVER render (where the only way on is a new
    game). *)
Inductive sameGame : App -> App -> Prop :=
| game_here s : sameGame s s
| game_event (rnd : Random) (fuel k : nat) (e : Event) s s' s'' k' :
    sameGame s s' ->
    status s' <> GAME_OVER ->
    unitDraws rnd ->
    enabled e s' = true ->
    dispatch fuel rnd k e s' = Some (s'', k') ->
    sameGame s s''.

(** ** Notions the statements use *)

(** A cell of the grid. *)
Definition inBounds (p : Point) : Prop :=
  0 <= x p < GRID_SIZE /\ 0 <= y p < GRID_SIZE.

(** [p] is a segment of the snake other than its last one. *)
Definition bodySegment (body : Snake) (p : Point) : Prop :=
  exists index : nat,
    (index < List.length body - 1)%nat /\ nth_error body index = Some p.

(** The reversal of a direction. *)
Definition opposite (d : Direction) : Direction :=
  match d with
  | UP => DOWN
  | DOWN => UP
  | LEFT => RIGHT
  | RIGHT => LEFT
  end.

(** A path through the whole grid that starts in the corner (0,0): row 0
    from left to right, row 1 from right to left, and so on. *)
Definition gridRow (j : nat) : list Point :=
  map (fun i => mkPoint (Z.of_nat i) (Z.of_nat j)) (seq 0 20).

Definition serpentine : Snake :=
  flat_map (fun j => if Nat.even j then gridRow j else rev (gridRow j))
           (seq 0 20).

(** A game one food away from filling the grid: the snake lies on the
    serpentine path from (1,0) on, heading left towards the food in the
    corner. *)
Definition lastFood : App :=
  {| snake := tl serpentine;
     food := mkPoint 0 0;
     direction := LEFT;
     status := PLAYING;
     score := 3960;
     highScore := Num 3960;
     speed := MIN_SPEED;
     lastProcessedDirection := LEFT |}.

(** An oracle that always answers 0, and the render the component
    mounts to with it and an empty store. *)
Definition zeros : Random := fun _ => 0%Q.

Definition mounted : App := setFood (mkPoint 0 0) firstRender.

(** A render in the middle of a game, used to instantiate statements. *)
Definition midGame : App :=
  {| snake := INITIAL_SNAKE;
     food := mkPoint 10 9;
     direction := UP;
     status := PLAYING;
     score := 0;
     highScore := Num 0;
     speed := INITIAL_SPEED;
     lastProcessedDirection := UP |}.

(** Every cell of the grid is tested by [covers]. *)
Definition gridCells : list Point :=
  flat_map gridRow (seq 0 20).

Definition covers (body : Snake) : bool :=
  forallb (onSnake body) gridCells.

(** The render with the buffered direction recorded as applied, which
    is the first thing [moveSnake] does in a PLAYING render. *)
Definition applied (s : App) : App :=
  setLastProcessedDirection (direction s) s.

(** What one run of [moveSnake] can leave behind, branch by branch. *)
Inductive Outcome (s : App) : App -> Prop :=
| outcome_not_playing :
    status s <> PLAYING ->
    Outcome s s
| outcome_empty :
    status s = PLAYING ->
    snake s = [] ->
    Outcome s (setSnake [] (applied s))
| outcome_collision currentHead rest :
    status s = PLAYING ->
    snake s = currentHead :: rest ->
    ~ inBounds (advance currentHead (direction s))
    \/ In (advance currentHead (direction s)) (removelast (snake s)) ->
    Outcome s (gameOver (applied s))
| outcome_plain currentHead rest :
    status s = PLAYING ->
    snake s = currentHead :: rest ->
    inBounds (advance currentHead (direction s)) ->
    advance currentHead (direction s) <> food s ->
    Outcome s (setSnake (advance currentHead (direction s)
                           :: removelast (snake s)) (applied s))
| outcome_growth currentHead rest newFood :
    status s = PLAYING ->
    snake s = currentHead :: rest ->
    inBounds (advance currentHead (direction s)) ->
    advance currentHead (direction s) = food s ->
    ~ In newFood (food s :: snake s) ->
    Outcome s (setSnake (food s :: snake s)
                 (setFood newFood
                    (setSpeed (Z.max MIN_SPEED (speed s - SPEED_DECREMENT))
                       (setScore (score s + 10) (applied s))))).

(** The render [startGame] sets up, given the food it drew; the high
    score is the one cell it leaves alone. *)
Definition newGame (newFood : Point) (hs : JSNumber) : App :=
  {| snake := INITIAL_SNAKE;
     food := newFood;
     direction := INITIAL_DIRECTION;
     status := PLAYING;
     score := 0;
     highScore := hs;
     speed := INITIAL_SPEED;
     lastProcessedDirection := INITIAL_DIRECTION |}.

(** A handler that touched neither the board nor the counters. *)
Record sameBoard (s s' : App) : Prop := {
  board_snake : snake s' = snake s;
  board_food : food s' = food s;
  board_score : score s' = score s;
  board_speed : speed s' = speed s;
  board_idle : status s' = IDLE -> status s = IDLE;
  board_over : status s = GAME_OVER -> status s' = GAME_OVER
}.

(** What holds in every committed render. *)
Record Invariant (s : App) : Prop := {
  inv_length : (3 <= List.length (snake s))%nat;
  inv_bounds : Forall inBounds (snake s);
  inv_speed : MIN_SPEED <= speed s <= INITIAL_SPEED;
  inv_idle :
    status s = IDLE ->
    snake s = INITIAL_SNAKE /\ speed s = INITIAL_SPEED /\ score s = 0
}.

(** The render after mounting, pressing ArrowLeft (which starts the
    game from IDLE) and one tick. *)
Definition firstTick : App :=
  {| snake := [mkPoint 9 10; mkPoint 10 10; mkPoint 10 11];
     food := mkPoint 0 0;
     direction := LEFT;
     status := PLAYING;
     score := 0;
     highScore := Num 0;
     speed := INITIAL_SPEED;
     lastProcessedDirection := LEFT |}.

(** A render in which the snake is about to run into its own body: the
    head at (5,5) heading right, the cell (6,5) being its fourth segment
    of five. *)
Definition coiled : App :=
  {| snake := [mkPoint 5 5; mkPoint 5 6; mkPoint 6 6; mkPoint 6 5; mkPoint 7 5];
     food := mkPoint 3 3;
     direction := RIGHT;
     status := PLAYING;
     score := 20;
     highScore := Num 20;
     speed := 146;
     lastProcessedDirection := UP |}.

(** The render after mounting and pressing ArrowLeft. *)
Definition started : App :=
  setStatus PLAYING (setDirection LEFT mounted).

(** ** App.tsx: what the high-score effect stores *)

(** [n.toString()] for an integer [n] that a JavaScript number holds
    exactly (a [safeInteger]; from 10^21 on JavaScript prints
    exponents, which these digits do not model): its decimal digits,
    after a minus sign when it is negative. *)
Definition toString (n : Z) : string :=
  match n with
  | Zneg p =>
      String "-"%char
        (DecimalString.NilZero.string_of_uint (Nat.to_uint (Pos.to_nat p)))
  | _ => DecimalString.NilZero.string_of_uint (Nat.to_uint (Z.to_nat n))
  end.

(** The string under the high-score key after the commit of [next]
    following [prev], when it held [stored] before: the high-score
    effect, when it runs and finds a higher score, calls
    [localStorage.setItem] with [score.toString()]. *)
Definition commitStorage (prev next : App) (stored : option string)
  : option string :=
  if (score next =? score prev) && js_is (highScore next) (highScore prev)
  then stored
  else if js_gt (Num (score next)) (highScore next)
       then Some (toString (score next))
       else stored.

(** ** components/Board.tsx *)

(** The four branches of [getCellStyle]; the head carries the
    [gameOver] flag its class depends on. *)
Inductive CellKind : Set :=
| FoodCell
| HeadCell (over : bool)
| BodyCell
| EmptyCell.

(** [Array.prototype.findIndex]: the index of the first element that
    satisfies [f], -1 when there is none. *)
Fixpoint findIndexFrom (f : Point -> bool) (index : Z) (l : Snake) : Z :=
  match l with
  | [] => -1
  | segment :: rest =>
      if f segment then index else findIndexFrom f (index + 1) rest
  end.

Definition findIndex (f : Point -> bool) (l : Snake) : Z :=
  findIndexFrom f 0 l.

(** [x = index % GRID_SIZE] and [y = Math.floor(index / GRID_SIZE)], for
    the array indices (never negative) the board is mapped over. *)
Definition cellPoint (index : Z) : Point :=
  {| x := index mod GRID_SIZE; y := index / GRID_SIZE |}.

(** The decisions of [getCellStyle]. *)
Definition cellKind (body : Snake) (foodAt : Point) (over : bool) (index : Z)
  : CellKind :=
  let p := cellPoint index in
  let isFood := (x foodAt =? x p) && (y foodAt =? y p) in
  let snakeIndex :=
    findIndex (fun segment => (x segment =? x p) && (y segment =? y p)) body in
  let isHead := snakeIndex =? 0 in
  let isBody := 0 <? snakeIndex in
  if isFood then FoodCell
  else if isHead then HeadCell over
  else if isBody then BodyCell
  else EmptyCell.

(** The class names [getCellStyle] returns in each branch. *)
Definition className (c : CellKind) : string :=
  match c with
  | FoodCell =>
      "bg-rose-500 shadow-[0_0_15px_rgba(244,63,94,0.8)] rounded-full scale-75 animate-pulse transition-transform"
  | HeadCell over =>
      "bg-emerald-400 shadow-[0_0_20px_rgba(52,211,153,0.8)] z-10 rounded-sm "
      ++ (if over then "bg-red-500 shadow-[0_0_20px_rgba(239,68,68,0.8)]"
          else "")
  | BodyCell =>
      "bg-emerald-600 shadow-[0_0_5px_rgba(5,150,105,0.5)] rounded-sm transition-all duration-200"
  | EmptyCell => "bg-zinc-900/40 border-[0.5px] border-zinc-800/30"
  end%string.

Definition getCellStyle (body : Snake) (foodAt : Point) (over : bool)
  (index : Z) : string :=
  className (cellKind body foodAt over index).

(** The indices [gridCells.map] runs over. *)
Definition cellIndices : list Z :=
  map Z.of_nat (seq 0 (Z.to_nat (GRID_SIZE * GRID_SIZE))).

(** The cells of the board as [App] renders it, in the order of the
    grid, by kind and by class name. *)
Definition boardKinds (s : App) : list CellKind :=
  map (cellKind (snake s) (food s) (GameStatus_eqb (status s) GAME_OVER))
      cellIndices.

Definition Board (s : App) : list string :=
  map (fun index =>
         ("w-full h-full relative "
          ++ getCellStyle (snake s) (food s)
               (GameStatus_eqb (status s) GAME_OVER) index)%string)
      cellIndices.

Definition isFoodCell (c : CellKind) : bool :=
  match c with FoodCell => true | _ => false end.

Definition isHeadCell (c : CellKind) : bool :=
  match c with HeadCell _ => true | _ => false end.

Definition isBodyCell (c : CellKind) : bool :=
  match c with BodyCell => true | _ => false end.

(** ** More of what holds in every committed render *)

(** The board and the counters fit together. *)
Record Coherent (s : App) : Prop := {
  coh_food_free : ~ In (food s) (snake s);
  coh_food_in : inBounds (food s);
  coh_nodup : NoDup (snake s);
  coh_score : score s = 10 * (Z.of_nat (List.length (snake s)) - 3);
  coh_speed :
    speed s =
    Z.max MIN_SPEED
      (INITIAL_SPEED
       - SPEED_DECREMENT * (Z.of_nat (List.length (snake s)) - 3));
  coh_turn : isOppositeDirection (direction s) (lastProcessedDirection s) = false;
  coh_neck :
    status s <> GAME_OVER ->
    forall currentHead neck rest,
      snake s = currentHead :: neck :: rest ->
      currentHead = advance neck (lastProcessedDirection s)
}.

(** The high score, when it is a number, is at least the score. *)
Definition scoreBelowHigh (s : App) : Prop :=
  forall h : Z, highScore s = Num h -> score s <= h.

(** What a key or pointer handler leaves behind when it does not start a
    new game. *)
Record handled (s s' : App) : Prop := {
  h_snake : snake s' = snake s;
  h_food : food s' = food s;
  h_score : score s' = score s;
  h_speed : speed s' = speed s;
  h_highScore : highScore s' = highScore s;
  h_last : lastProcessedDirection s' = lastProcessedDirection s;
  h_direction :
    direction s' = direction s
    \/ isOppositeDirection (direction s') (lastProcessedDirection s) = false;
  h_status :
    status s' = status s
    \/ status s = IDLE /\ status s' = PLAYING
    \/ status s = PLAYING /\ status s' = PAUSED
    \/ status s = PAUSED /\ status s' = PLAYING
}.

(** The moves of the status the component makes. *)
Definition statusStep (a b : GameStatus) : bool :=
  match a, b with
  | IDLE, IDLE | IDLE, PLAYING => true
  | PLAYING, PLAYING | PLAYING, PAUSED | PLAYING, GAME_OVER => true
  | PAUSED, PAUSED | PAUSED, PLAYING => true
  | GAME_OVER, GAME_OVER | GAME_OVER, PLAYING => true
  | _, _ => false
  end.

(** The render after [midGame] has eaten the food in front of it, with
    the oracle [zeros]. *)
Definition fed : App :=
  {| snake := [mkPoint 10 9; mkPoint 10 10; mkPoint 10 11; mkPoint 10 12];
     food := mkPoint 0 0;
     direction := UP;
     status := PLAYING;
     score := 10;
     highScore := Num 10;
     speed := 148;
     lastProcessedDirection := UP |}.

(** What [cellKind] decides, as a function of the point of the cell. *)
Definition pointKind (body : Snake) (foodAt : Point) (over : bool) (p : Point)
  : CellKind :=
  if samePoint foodAt p then FoodCell
  else if findIndex (fun segment => samePoint segment p) body =? 0
       then HeadCell over
       else if 0 <? findIndex (fun segment => samePoint segment p) body
            then BodyCell
            else EmptyCell.

(** An oracle whose first proposal is the cell (10,10) and whose later
    ones are the corner (0,0). *)
Definition halves : Random :=
  fun i => if (i <? 2)%nat then (1 # 2)%Q else 0%Q.

(** Timeouts in a row: [n] ticks lead from one render to another, each
    with the oracle, cursor and fuel of its own. *)
Inductive ticks : nat -> App -> App -> Prop :=
| ticks_O s : ticks 0 s s
| ticks_S (n fuel : nat) (rnd : Random) (k : nat) s s' s'' k' :
    unitDraws rnd ->
    tick fuel rnd k s = Some (s', k') ->
    ticks n s' s'' ->
    ticks (S n) s s''.

(** How many cells the head is away from leaving the grid in the
    buffered direction. *)
Definition toWall (s : App) : Z :=
  match snake s with
  | [] => 0
  | currentHead :: _ =>
      match direction s with
      | UP => y currentHead + 1
      | DOWN => GRID_SIZE - y currentHead
      | LEFT => x currentHead + 1
      | RIGHT => GRID_SIZE - x currentHead
      end
  end.

(** Where [started] ends up when nobody steers: in the left wall of
    row 10. *)
Definition crashed : App :=
  {| snake := [mkPoint 0 10; mkPoint 1 10; mkPoint 2 10];
     food := mkPoint 0 0;
     direction := LEFT;
     status := GAME_OVER;
     score := 0;
     highScore := Num 0;
     speed := INITIAL_SPEED;
     lastProcessedDirection := LEFT |}.

(** An oracle whose first proposal is the cell (10,9), right above the
    head of the seed snake. *)
Definition ahead : Random :=
  fun i => if (i =? 0)%nat then (1 # 2)%Q else (9 # 20)%Q.

(** The property names a plain object such as KEY_MAP inherits from
    [Object.prototype]: indexing the table with one of them gives a
    function or an object, not [undefined]. *)
Definition inheritedName (key : string) : bool :=
  existsb (String.eqb key)
    [ "constructor"; "hasOwnProperty"; "isPrototypeOf";
      "propertyIsEnumerable"; "toLocaleString"; "toString"; "valueOf";
      "__proto__"; "__defineGetter__"; "__defineSetter__";
      "__lookupGetter__"; "__lookupSetter__" ]%string.

(** The integers a JavaScript number holds exactly (between
    [Number.MIN_SAFE_INTEGER] and [Number.MAX_SAFE_INTEGER]); on them
    [toString] prints plain decimal digits and [parseInt] reads them
    back without rounding. *)
Definition safeInteger (n : Z) : Prop := - 2 ^ 53 < n < 2 ^ 53.

(** An oracle that, from the cursor [k] on, proposes a cell off every
    snake that leaves a cell of the grid free within [fuel] proposals,
    wherever a call of [getRandomPosition] starts. *)
Definition thorough (rnd : Random) (k fuel : nat) : Prop :=
  forall (j : nat) (body : Snake),
    (exists p, inBounds p /\ ~ In p body) ->
    exists m, (m < fuel)%nat /\ ~ In (proposal rnd (k + 2 * j) m) body.

(** [n] timeouts in a row with one oracle, the cursor handed on from
    tick to tick; [None] when a tick does not come back within [fuel]
    rounds of its loop. *)
Fixpoint unsteered (fuel : nat) (rnd : Random) (n k : nat) (s : App)
  : option (App * nat) :=
  match n with
  | O => Some (s, k)
  | S n' =>
      match tick fuel rnd k s with
      | Some (s', k') => unsteered fuel rnd n' k' s'
      | None => None
      end
  end.

(** An oracle that proposes the cells of the grid one after the other,
    row by row, again and again. *)
Definition sweep : Random :=
  fun i =>
    (Z.of_nat (if Nat.even i then (i / 2) mod 20 else (i / 2 / 20) mod 20)
     # 20)%Q.

(** * Properties *)

(** ** Points and lists *)

Lemma samePoint_eq (p q : Point) : samePoint p q = true <-> p = q.
Proof.
  unfold samePoint. rewrite andb_true_iff, !Z.eqb_eq.
  destruct p as [px py], q as [qx qy]; simpl. split.
  - intros [-> ->]. reflexivity.
  - intros E. injection E. auto.
Qed.

Lemma samePoint_refl (p : Point) : samePoint p p = true.
Proof. apply samePoint_eq. reflexivity. Qed.

Lemma samePoint_neq (p q : Point) : samePoint p q = false <-> p <> q.
Proof.
  rewrite <- samePoint_eq. destruct (samePoint p q); split; congruence.
Qed.

Lemma onSnake_In (body : Snake) (p : Point) : onSnake body p = true <-> In p body.
Proof.
  unfold onSnake. rewrite existsb_exists. split.
  - intros [seg [Hin Hsame]]. apply samePoint_eq in Hsame. now subst.
  - intros Hin. exists p. split; [assumption | apply samePoint_refl].
Qed.

Lemma onSnake_not_In (body : Snake) (p : Point) :
  onSnake body p = false <-> ~ In p body.
Proof.
  rewrite <- onSnake_In. destruct (onSnake body p); split; congruence.
Qed.

Lemma someFrom_skip_last (p : Point) (n : nat) (l : Snake) :
  forall index : nat,
    (index + List.length l = n)%nat ->
    someFrom (fun seg i => if (i =? n - 1)%nat then false else samePoint seg p)
             index l = true
    <-> In p (removelast l).
Proof.
  induction l as [| seg rest IH]; intros index Hlen.
  - simpl. split; [discriminate | tauto].
  - destruct rest as [| seg' rest'].
    + simpl in *. replace (index =? n - 1)%nat with true
        by (symmetry; apply Nat.eqb_eq; lia).
      simpl. split; [discriminate | tauto].
    + change (removelast (seg :: seg' :: rest'))
        with (seg :: removelast (seg' :: rest')).
      cbn [someFrom]. simpl List.length in Hlen.
      replace (index =? n - 1)%nat with false
        by (symmetry; apply Nat.eqb_neq; lia).
      rewrite orb_true_iff, (IH (S index)) by (simpl; lia).
      rewrite samePoint_eq. simpl. split; intros [H | H]; auto.
Qed.

Lemma hitsSelf_In (body : Snake) (p : Point) :
  hitsSelf body p = true <-> In p (removelast body).
Proof. unfold hitsSelf. apply someFrom_skip_last. reflexivity. Qed.

Lemma hitsSelf_not_In (body : Snake) (p : Point) :
  hitsSelf body p = false <-> ~ In p (removelast body).
Proof.
  rewrite <- hitsSelf_In. destruct (hitsSelf body p); split; congruence.
Qed.

Lemma bodySegment_In (body : Snake) (p : Point) :
  bodySegment body p <-> In p (removelast body).
Proof.
  unfold bodySegment. induction body as [| seg [| seg' rest] IH].
  - simpl. split; [intros [index [Hlt _]]; lia | tauto].
  - simpl. split; [intros [index [Hlt _]]; lia | tauto].
  - change (removelast (seg :: seg' :: rest))
      with (seg :: removelast (seg' :: rest)).
    cbn [List.length] in *. split.
    + intros [[| index] [Hlt Hnth]].
      * left. simpl in Hnth. congruence.
      * right. apply IH. exists index. simpl in Hnth. split; [lia | assumption].
    + intros [-> | Hin].
      * exists 0%nat. split; [lia | reflexivity].
      * apply IH in Hin. destruct Hin as [index [Hlt Hnth]].
        exists (S index). split; [lia | assumption].
Qed.

Lemma hitsSelf_bodySegment (body : Snake) (p : Point) :
  hitsSelf body p = true <-> bodySegment body p.
Proof. rewrite bodySegment_In. apply hitsSelf_In. Qed.

Lemma hitsSelf_not_bodySegment (body : Snake) (p : Point) :
  hitsSelf body p = false <-> ~ bodySegment body p.
Proof. rewrite bodySegment_In. apply hitsSelf_not_In. Qed.

Lemma hitsWall_outside (p : Point) :
  hitsWall p = true
  <-> x p < 0 \/ x p >= GRID_SIZE \/ y p < 0 \/ y p >= GRID_SIZE.
Proof.
  unfold hitsWall. rewrite !orb_true_iff, !Z.ltb_lt, !Z.geb_le. lia.
Qed.

Lemma hitsWall_inBounds (p : Point) : hitsWall p = false <-> inBounds p.
Proof.
  unfold inBounds. destruct (hitsWall p) eqn:E.
  - apply hitsWall_outside in E. split; [discriminate | lia].
  - split; [intros _ | reflexivity].
    assert (H : ~ (x p < 0 \/ x p >= GRID_SIZE \/ y p < 0 \/ y p >= GRID_SIZE))
      by (rewrite <- hitsWall_outside; congruence).
    lia.
Qed.

Lemma removelast_length (A : Type) (l : list A) :
  l <> [] -> S (List.length (removelast l)) = List.length l.
Proof.
  induction l as [| a [| b r] IH]; intros Hne.
  - congruence.
  - reflexivity.
  - change (removelast (a :: b :: r)) with (a :: removelast (b :: r)).
    cbn [List.length]. f_equal. apply IH. discriminate.
Qed.

Lemma Forall_removelast (A : Type) (P : A -> Prop) (l : list A) :
  Forall P l -> Forall P (removelast l).
Proof.
  induction 1 as [| a [| b r] Ha Hr IH].
  - constructor.
  - constructor.
  - change (removelast (a :: b :: r)) with (a :: removelast (b :: r)).
    constructor; assumption.
Qed.

(** ** The random oracle and [getRandomPosition] *)

Lemma randomCoordinate_range (r : Q) :
  (0 <= r)%Q -> (r < 1)%Q -> 0 <= randomCoordinate r < GRID_SIZE.
Proof.
  intros Hlo Hhi. unfold randomCoordinate, GRID_SIZE. split.
  - rewrite <- (Qfloor_Z 0). apply Qfloor_resp_le.
    apply Qmult_le_0_compat; [assumption | discriminate].
  - rewrite Zlt_Qlt. eapply Qle_lt_trans; [apply Qfloor_le |].
    destruct r as [a b]. unfold Qlt in *. simpl in *. lia.
Qed.

Lemma proposal_inBounds (rnd : Random) (k n : nat) :
  unitDraws rnd -> inBounds (proposal rnd k n).
Proof.
  intros Hfair. unfold inBounds, proposal. simpl.
  split; apply randomCoordinate_range; apply Hfair.
Qed.

Lemma proposal_first (rnd : Random) (k : nat) :
  proposal rnd k 0 =
  {| x := randomCoordinate (rnd k); y := randomCoordinate (rnd (k + 1)%nat) |}.
Proof.
  unfold proposal. now replace (k + 2 * 0)%nat with k by lia.
Qed.

Lemma proposal_next (rnd : Random) (k n : nat) :
  proposal rnd (k + 2) n = proposal rnd k (S n).
Proof.
  unfold proposal.
  replace (k + 2 + 2 * n)%nat with (k + 2 * S n)%nat by lia. reflexivity.
Qed.

(** The loop unfolds one round at a time. *)
Lemma getRandomPosition_round (fuel : nat) (rnd : Random) (k : nat) (body : Snake) :
  getRandomPosition (S fuel) rnd k body =
  if negb (onSnake body (proposal rnd k 0))
  then Some (proposal rnd k 0, (k + 2)%nat)
  else getRandomPosition fuel rnd (k + 2) body.
Proof. rewrite proposal_first. reflexivity. Qed.

(** Whatever the loop returns is one of its proposals, and is off the
    snake. *)
Lemma getRandomPosition_proposal (rnd : Random) (body : Snake) (fuel : nat) :
  forall (k : nat) (p : Point) (k' : nat),
    getRandomPosition fuel rnd k body = Some (p, k') ->
    onSnake body p = false /\ exists n, p = proposal rnd k n.
Proof.
  induction fuel as [| fuel IH]; intros k p k' Hget.
  - discriminate.
  - rewrite getRandomPosition_round in Hget.
    destruct (onSnake body (proposal rnd k 0)) eqn:Hon; simpl in Hget.
    + apply IH in Hget. destruct Hget as [Hfree [n ->]].
      split; [assumption |]. exists (S n). apply proposal_next.
    + injection Hget as <- _. split; [assumption | now exists 0%nat].
Qed.

Lemma getRandomPosition_free (rnd : Random) (body : Snake) (fuel k : nat)
  (p : Point) (k' : nat) :
  getRandomPosition fuel rnd k body = Some (p, k') -> ~ In p body.
Proof.
  intros Hget. apply onSnake_not_In.
  now apply getRandomPosition_proposal in Hget.
Qed.

Lemma getRandomPosition_inBounds (rnd : Random) (body : Snake) (fuel k : nat)
  (p : Point) (k' : nat) :
  unitDraws rnd -> getRandomPosition fuel rnd k body = Some (p, k') -> inBounds p.
Proof.
  intros Hfair Hget. apply getRandomPosition_proposal in Hget.
  destruct Hget as [_ [n ->]]. now apply proposal_inBounds.
Qed.

(** The loop ends as soon as a proposal is off the snake: with a free
    proposal in round [n], more than [n] rounds of fuel give an answer. *)
Lemma getRandomPosition_finds (rnd : Random) (body : Snake) (n : nat) :
  forall k fuel : nat,
    onSnake body (proposal rnd k n) = false ->
    (n < fuel)%nat ->
    exists p k', getRandomPosition fuel rnd k body = Some (p, k').
Proof.
  induction n as [| n IH]; intros k fuel Hfree Hfuel;
    (destruct fuel as [| fuel]; [lia |]);
    rewrite getRandomPosition_round.
  - rewrite Hfree. simpl. eauto.
  - destruct (onSnake body (proposal rnd k 0)); simpl; [| eauto].
    apply IH; [| lia]. now rewrite proposal_next.
Qed.

(** With every proposal on the snake the loop never ends. *)
Lemma getRandomPosition_blocked (rnd : Random) (body : Snake) :
  (forall k n, onSnake body (proposal rnd k n) = true) ->
  forall fuel k, getRandomPosition fuel rnd k body = None.
Proof.
  intros Hall. induction fuel as [| fuel IH]; intros k.
  - reflexivity.
  - rewrite getRandomPosition_round, Hall. simpl. apply IH.
Qed.

(** [covers] is what it says: a snake that covers the grid is hit by
    every cell in bounds. *)
Lemma gridCells_complete (p : Point) : inBounds p -> In p gridCells.
Proof.
  intros [[Hx0 Hx1] [Hy0 Hy1]]. unfold GRID_SIZE in *.
  unfold gridCells. apply in_flat_map. exists (Z.to_nat (y p)). split.
  - apply in_seq. lia.
  - unfold gridRow. apply in_map_iff. exists (Z.to_nat (x p)). split.
    + destruct p as [px py]. simpl in *. f_equal; lia.
    + apply in_seq. lia.
Qed.

Lemma covers_onSnake (body : Snake) (p : Point) :
  covers body = true -> inBounds p -> onSnake body p = true.
Proof.
  unfold covers. rewrite forallb_forall. intros Hall Hin.
  apply Hall. now apply gridCells_complete.
Qed.

Lemma covers_blocks (body : Snake) (rnd : Random) :
  covers body = true -> unitDraws rnd ->
  forall fuel k, getRandomPosition fuel rnd k body = None.
Proof.
  intros Hcov Hfair. apply getRandomPosition_blocked. intros k n.
  apply covers_onSnake; [assumption | now apply proposal_inBounds].
Qed.

Lemma zeros_unitDraws : unitDraws zeros.
Proof. intros i. unfold zeros. split; [apply Qle_refl | reflexivity]. Qed.

(** ** Committing a render *)

(** The commit touches the high score only. *)
Lemma commit_shape (prev next : App) :
  commit prev next = next \/ commit prev next = setHighScore (Num (score next)) next.
Proof.
  unfold commit, updateHighScore.
  destruct ((score next =? score prev) && js_is (highScore next) (highScore prev));
    [now left |].
  destruct (js_gt (Num (score next)) (highScore next)); [now right | now left].
Qed.

Lemma commit_snake prev next : snake (commit prev next) = snake next.
Proof. destruct (commit_shape prev next) as [-> | ->]; reflexivity. Qed.

Lemma commit_food prev next : food (commit prev next) = food next.
Proof. destruct (commit_shape prev next) as [-> | ->]; reflexivity. Qed.

Lemma commit_direction prev next : direction (commit prev next) = direction next.
Proof. destruct (commit_shape prev next) as [-> | ->]; reflexivity. Qed.

Lemma commit_status prev next : status (commit prev next) = status next.
Proof. destruct (commit_shape prev next) as [-> | ->]; reflexivity. Qed.

Lemma commit_score prev next : score (commit prev next) = score next.
Proof. destruct (commit_shape prev next) as [-> | ->]; reflexivity. Qed.

Lemma commit_speed prev next : speed (commit prev next) = speed next.
Proof. destruct (commit_shape prev next) as [-> | ->]; reflexivity. Qed.

Lemma commit_lastProcessedDirection prev next :
  lastProcessedDirection (commit prev next) = lastProcessedDirection next.
Proof. destruct (commit_shape prev next) as [-> | ->]; reflexivity. Qed.

Lemma js_is_refl (a : JSNumber) : js_is a a = true.
Proof. destruct a; simpl; [apply Z.eqb_refl | reflexivity]. Qed.

(** With [score] and [highScore] as they were, the effect does not run. *)
Lemma commit_idle (prev next : App) :
  score next = score prev -> highScore next = highScore prev ->
  commit prev next = next.
Proof.
  intros Hs Hh. unfold commit. now rewrite Hs, Hh, Z.eqb_refl, js_is_refl.
Qed.

Ltac commit_fields :=
  rewrite ?commit_snake, ?commit_food, ?commit_direction, ?commit_status,
    ?commit_score, ?commit_speed, ?commit_lastProcessedDirection.

(** ** The branches of [moveSnake] *)

Section MoveSnake.

Variables (fuel : nat) (rnd : Random) (k : nat).
Variables (s : App) (currentHead : Point) (rest : Snake).

Hypothesis Hplaying : status s = PLAYING.
Hypothesis Hsnake : snake s = currentHead :: rest.

Let newHead : Point := advance currentHead (direction s).
Let s0 : App := setLastProcessedDirection (direction s) s.

Lemma moveSnake_wall :
  hitsWall newHead = true ->
  moveSnake fuel rnd k s = Some (gameOver s0, k).
Proof.
  intros Hwall. unfold moveSnake. rewrite Hplaying, Hsnake. simpl.
  fold newHead. now rewrite Hwall.
Qed.

Lemma moveSnake_self :
  hitsWall newHead = false ->
  hitsSelf (snake s) newHead = true ->
  moveSnake fuel rnd k s = Some (gameOver s0, k).
Proof.
  intros Hwall Hself. unfold moveSnake. rewrite Hplaying. simpl.
  rewrite Hsnake in *. fold newHead. now rewrite Hwall, Hself.
Qed.

Lemma moveSnake_plain :
  hitsWall newHead = false ->
  hitsSelf (snake s) newHead = false ->
  samePoint newHead (food s) = false ->
  moveSnake fuel rnd k s = Some (setSnake (pop (newHead :: snake s)) s0, k).
Proof.
  intros Hwall Hself Hfood. unfold moveSnake. rewrite Hplaying. simpl negb.
  cbv iota. rewrite Hsnake in *. fold newHead.
  now rewrite Hwall, Hself, Hfood.
Qed.

Lemma moveSnake_growth :
  hitsWall newHead = false ->
  hitsSelf (snake s) newHead = false ->
  samePoint newHead (food s) = true ->
  moveSnake fuel rnd k s =
  match getRandomPosition fuel rnd k (newHead :: snake s) with
  | Some (newFood, k') =>
      Some (setSnake (newHead :: snake s)
              (setFood newFood
                 (setSpeed (Z.max MIN_SPEED (speed s - SPEED_DECREMENT))
                    (setScore (score s + 10) s0))), k')
  | None => None
  end.
Proof.
  intros Hwall Hself Hfood. unfold moveSnake. rewrite Hplaying. simpl negb.
  cbv iota. rewrite Hsnake in *. fold newHead.
  now rewrite Hwall, Hself, Hfood.
Qed.

End MoveSnake.

Lemma moveSnake_not_playing (fuel : nat) (rnd : Random) (k : nat) (s : App) :
  status s <> PLAYING -> moveSnake fuel rnd k s = Some (s, k).
Proof.
  intros Hst. unfold moveSnake. destruct (status s); try reflexivity.
  congruence.
Qed.

(** ** One tick *)

(** C1 (as amended).  In a PLAYING render whose new head (the head one
    cell further along the applied direction) is the food cell, lies in
    bounds and is on no segment but possibly the tail, and provided
    [Math.random] proposes a cell off the grown snake in some round [n]
    of the loop (more than [n] rounds given), one tick produces a render
    whose snake is the new head in front of the whole old snake (one
    longer), whose score is 10 higher, whose speed is
    [max(MIN_SPEED, speed - SPEED_DECREMENT)], and whose food is on no
    segment of the grown snake (and in bounds, the draws being in range). *)
Theorem tick_growth (s : App) (currentHead : Point) (rest : Snake)
    (newHead : Point) (rnd : Random) (k n fuel : nat) :
  status s = PLAYING ->
  snake s = currentHead :: rest ->
  newHead = advance currentHead (direction s) ->
  newHead = food s ->
  inBounds newHead ->
  ~ bodySegment (snake s) newHead ->
  ~ In (proposal rnd k n) (newHead :: snake s) ->
  (n < fuel)%nat ->
  exists s' k',
    tick fuel rnd k s = Some (s', k') /\
    snake s' = newHead :: snake s /\
    List.length (snake s') = S (List.length (snake s)) /\
    score s' = score s + 10 /\
    speed s' = Z.max MIN_SPEED (speed s - SPEED_DECREMENT) /\
    ~ In (food s') (snake s') /\
    (unitDraws rnd -> inBounds (food s')).
Proof.
  intros Hst Hsn Hnew Hfood Hin Hself Hfree Hfuel.
  apply hitsWall_inBounds in Hin. apply hitsSelf_not_bodySegment in Hself.
  apply onSnake_not_In in Hfree.
  destruct (getRandomPosition_finds rnd _ n k fuel Hfree Hfuel)
    as [newFood [k' Hget]].
  unfold tick.
  rewrite (moveSnake_growth fuel rnd k s currentHead rest Hst Hsn);
    rewrite <- ?Hnew; try assumption;
    [| rewrite <- Hfood; apply samePoint_refl].
  rewrite Hget. simpl commitResult.
  eexists; eexists; split; [reflexivity |]. commit_fields. simpl.
  do 4 (split; [reflexivity |]). split.
  - apply (getRandomPosition_free _ _ _ _ _ _ Hget).
  - intros Hfair. apply (getRandomPosition_inBounds _ _ _ _ _ _ Hfair Hget).
Qed.

Lemma tick_growth_witness :
  exists s' k',
    tick 1 zeros 0 midGame = Some (s', k') /\
    snake s' = mkPoint 10 9 :: snake midGame /\
    List.length (snake s') = S (List.length (snake midGame)) /\
    score s' = score midGame + 10 /\
    speed s' = Z.max MIN_SPEED (speed midGame - SPEED_DECREMENT) /\
    ~ In (food s') (snake s') /\
    (unitDraws zeros -> inBounds (food s')).
Proof.
  apply (tick_growth midGame (mkPoint 10 10) [mkPoint 10 11; mkPoint 10 12]
           (mkPoint 10 9) zeros 0 0 1).
  - reflexivity.
  - reflexivity.
  - reflexivity.
  - reflexivity.
  - unfold inBounds, GRID_SIZE; simpl; lia.
  - apply hitsSelf_not_bodySegment. reflexivity.
  - simpl. intros [H | [H | [H | [H | H]]]];
      [discriminate H | discriminate H | discriminate H | discriminate H
      | exact H].
  - lia.
Defined.

(** C1 (as stated) fails where the grown snake fills the grid: in
    [lastFood] the new head is the food cell, in bounds and off the
    snake, yet no tick produces a render, whatever [Math.random]
    returns and however long the loop runs. *)
Lemma full_grid_blocks_growth :
  status lastFood = PLAYING /\
  snake lastFood = mkPoint 1 0 :: tl (snake lastFood) /\
  advance (mkPoint 1 0) (direction lastFood) = food lastFood /\
  inBounds (food lastFood) /\
  ~ bodySegment (snake lastFood) (food lastFood) /\
  forall rnd : Random, unitDraws rnd ->
    forall fuel k : nat, tick fuel rnd k lastFood = None.
Proof.
  split; [reflexivity |]. split; [reflexivity |]. split; [reflexivity |].
  split; [unfold inBounds, GRID_SIZE; simpl; lia |].
  split; [apply hitsSelf_not_bodySegment; vm_compute; reflexivity |].
  intros rnd Hfair fuel k. unfold tick.
  rewrite (moveSnake_growth fuel rnd k lastFood (mkPoint 1 0)
             (tl (snake lastFood)));
    try (vm_compute; reflexivity).
  rewrite covers_blocks; [reflexivity | vm_compute; reflexivity | assumption].
Qed.

(** C2.  In a PLAYING render whose new head is in bounds, is not the food
    cell and is on no segment but possibly the tail, one tick produces
    the new head in front of the old snake without its last segment, so
    the length is unchanged; and the snake (10,10),(10,11),(10,12)
    heading up, with food not at (10,9), becomes (10,9),(10,10),(10,11). *)
Theorem tick_plain :
  (forall (s : App) (currentHead : Point) (rest : Snake) (newHead : Point)
          (fuel : nat) (rnd : Random) (k : nat),
      status s = PLAYING ->
      snake s = currentHead :: rest ->
      newHead = advance currentHead (direction s) ->
      inBounds newHead ->
      newHead <> food s ->
      ~ bodySegment (snake s) newHead ->
      exists s',
        tick fuel rnd k s = Some (s', k) /\
        snake s' = newHead :: removelast (snake s) /\
        List.length (snake s') = List.length (snake s))
  /\
  (forall (s : App) (fuel : nat) (rnd : Random) (k : nat),
      status s = PLAYING ->
      snake s = [mkPoint 10 10; mkPoint 10 11; mkPoint 10 12] ->
      direction s = UP ->
      food s <> mkPoint 10 9 ->
      exists s',
        tick fuel rnd k s = Some (s', k) /\
        snake s' = [mkPoint 10 9; mkPoint 10 10; mkPoint 10 11]).
Proof.
  assert (General :
    forall s currentHead rest newHead fuel rnd k,
      status s = PLAYING ->
      snake s = currentHead :: rest ->
      newHead = advance currentHead (direction s) ->
      inBounds newHead ->
      newHead <> food s ->
      ~ bodySegment (snake s) newHead ->
      exists s',
        tick fuel rnd k s = Some (s', k) /\
        snake s' = newHead :: removelast (snake s) /\
        List.length (snake s') = List.length (snake s)).
  { intros s currentHead rest newHead fuel rnd k Hst Hsn Hnew Hin Hfood Hself.
    apply hitsWall_inBounds in Hin. apply hitsSelf_not_bodySegment in Hself.
    apply samePoint_neq in Hfood. unfold tick.
    rewrite (moveSnake_plain fuel rnd k s currentHead rest Hst Hsn);
      rewrite <- ?Hnew; try assumption.
    simpl commitResult. eexists; split; [reflexivity |]. commit_fields.
    cbn [snake setSnake]. rewrite Hsn. cbv iota. split; [reflexivity |].
    unfold pop. cbn [List.length].
    rewrite removelast_length; [reflexivity | discriminate]. }
  split; [exact General |].
  intros s fuel rnd k Hst Hsn Hdir Hfood.
  destruct (General s (mkPoint 10 10) [mkPoint 10 11; mkPoint 10 12]
              (mkPoint 10 9) fuel rnd k) as [s' [Htick [Hsnake' _]]];
    try assumption.
  - rewrite Hdir. reflexivity.
  - unfold inBounds, GRID_SIZE; simpl; lia.
  - congruence.
  - rewrite Hsn. apply hitsSelf_not_bodySegment. reflexivity.
  - exists s'. split; [assumption |]. rewrite Hsnake', Hsn. reflexivity.
Qed.

Lemma tick_plain_witness :
  (exists s',
      tick 0 zeros 0 (setFood (mkPoint 3 3) midGame) = Some (s', 0%nat) /\
      snake s' = mkPoint 10 9 :: removelast (snake (setFood (mkPoint 3 3) midGame)) /\
      List.length (snake s') = List.length (snake (setFood (mkPoint 3 3) midGame)))
  /\
  (exists s',
      tick 0 zeros 0 (setFood (mkPoint 3 3) midGame) = Some (s', 0%nat) /\
      snake s' = [mkPoint 10 9; mkPoint 10 10; mkPoint 10 11]).
Proof.
  split.
  - apply (proj1 tick_plain (setFood (mkPoint 3 3) midGame) (mkPoint 10 10)
             [mkPoint 10 11; mkPoint 10 12] (mkPoint 10 9) 0%nat zeros 0%nat).
    + reflexivity.
    + reflexivity.
    + reflexivity.
    + unfold inBounds, GRID_SIZE; simpl; lia.
    + simpl. discriminate.
    + apply hitsSelf_not_bodySegment. reflexivity.
  - apply (proj2 tick_plain (setFood (mkPoint 3 3) midGame) 0%nat zeros 0%nat).
    + reflexivity.
    + reflexivity.
    + reflexivity.
    + simpl. discriminate.
Defined.

(** C3.  In a PLAYING render whose new head lies outside the grid, the
    tick ends the game and leaves snake, food, direction, score, speed
    and high score as they were; a head at (0,5) heading left gives the
    new head (-1,5) and GAME_OVER. *)
Theorem tick_wall :
  (forall (s : App) (currentHead : Point) (rest : Snake) (newHead : Point)
          (fuel : nat) (rnd : Random) (k : nat),
      status s = PLAYING ->
      snake s = currentHead :: rest ->
      newHead = advance currentHead (direction s) ->
      x newHead < 0 \/ x newHead >= GRID_SIZE \/
      y newHead < 0 \/ y newHead >= GRID_SIZE ->
      exists s',
        tick fuel rnd k s = Some (s', k) /\
        status s' = GAME_OVER /\
        snake s' = snake s /\ food s' = food s /\
        direction s' = direction s /\ score s' = score s /\
        speed s' = speed s /\ highScore s' = highScore s)
  /\
  (forall (s : App) (rest : Snake) (fuel : nat) (rnd : Random) (k : nat),
      status s = PLAYING ->
      snake s = mkPoint 0 5 :: rest ->
      direction s = LEFT ->
      advance (mkPoint 0 5) (direction s) = mkPoint (-1) 5 /\
      exists s', tick fuel rnd k s = Some (s', k) /\ status s' = GAME_OVER).
Proof.
  assert (General :
    forall s currentHead rest newHead fuel rnd k,
      status s = PLAYING ->
      snake s = currentHead :: rest ->
      newHead = advance currentHead (direction s) ->
      x newHead < 0 \/ x newHead >= GRID_SIZE \/
      y newHead < 0 \/ y newHead >= GRID_SIZE ->
      exists s',
        tick fuel rnd k s = Some (s', k) /\
        status s' = GAME_OVER /\
        snake s' = snake s /\ food s' = food s /\
        direction s' = direction s /\ score s' = score s /\
        speed s' = speed s /\ highScore s' = highScore s).
  { intros s currentHead rest newHead fuel rnd k Hst Hsn Hnew Hout.
    apply hitsWall_outside in Hout. unfold tick.
    rewrite (moveSnake_wall fuel rnd k s currentHead rest Hst Hsn)
      by (rewrite <- Hnew; assumption).
    simpl commitResult. rewrite commit_idle by reflexivity.
    eexists; split; [reflexivity |]. repeat split. }
  split; [exact General |].
  intros s rest fuel rnd k Hst Hsn Hdir. rewrite Hdir.
  split; [reflexivity |].
  destruct (General s (mkPoint 0 5) rest (mkPoint (-1) 5) fuel rnd k)
    as [s' [Htick [Hover _]]]; try assumption.
  - rewrite Hdir. reflexivity.
  - left. simpl. lia.
  - exists s'. split; assumption.
Qed.

Lemma tick_wall_witness :
  (exists s',
      tick 0 zeros 0 (setSnake [mkPoint 10 0; mkPoint 10 1; mkPoint 10 2] midGame)
      = Some (s', 0%nat) /\
      status s' = GAME_OVER /\
      snake s' = [mkPoint 10 0; mkPoint 10 1; mkPoint 10 2] /\
      food s' = food midGame /\
      direction s' = direction midGame /\ score s' = score midGame /\
      speed s' = speed midGame /\ highScore s' = highScore midGame)
  /\
  (advance (mkPoint 0 5)
           (direction (setDirection LEFT
                         (setSnake [mkPoint 0 5; mkPoint 1 5; mkPoint 2 5] midGame)))
   = mkPoint (-1) 5 /\
   exists s',
     tick 0 zeros 0
          (setDirection LEFT
             (setSnake [mkPoint 0 5; mkPoint 1 5; mkPoint 2 5] midGame))
     = Some (s', 0%nat) /\
     status s' = GAME_OVER).
Proof.
  split.
  - apply (proj1 tick_wall
             (setSnake [mkPoint 10 0; mkPoint 10 1; mkPoint 10 2] midGame)
             (mkPoint 10 0) [mkPoint 10 1; mkPoint 10 2] (mkPoint 10 (-1))
             0%nat zeros 0%nat).
    + reflexivity.
    + reflexivity.
    + reflexivity.
    + right. right. left. simpl. lia.
  - apply (proj2 tick_wall
             (setDirection LEFT
                (setSnake [mkPoint 0 5; mkPoint 1 5; mkPoint 2 5] midGame))
             [mkPoint 1 5; mkPoint 2 5] 0%nat zeros 0%nat).
    + reflexivity.
    + reflexivity.
    + reflexivity.
Defined.

(** C4.  In a PLAYING render with the new head in bounds, the tick ends
    the game exactly when the new head is a segment of the snake other
    than its last one; when it is on no such segment (on the tail alone
    or on none), whatever the tick produces is still PLAYING, also when
    the new head is the food cell. *)
Theorem tick_self_collision (s : App) (currentHead : Point) (rest : Snake)
    (newHead : Point) (fuel : nat) (rnd : Random) (k : nat) :
  status s = PLAYING ->
  snake s = currentHead :: rest ->
  newHead = advance currentHead (direction s) ->
  inBounds newHead ->
  ((exists s' k', tick fuel rnd k s = Some (s', k') /\ status s' = GAME_OVER)
   <-> bodySegment (snake s) newHead)
  /\
  (~ bodySegment (snake s) newHead ->
   forall s' k', tick fuel rnd k s = Some (s', k') -> status s' = PLAYING).
Proof.
  intros Hst Hsn Hnew Hin. apply hitsWall_inBounds in Hin.
  assert (Free :
    ~ bodySegment (snake s) newHead ->
    forall s' k', tick fuel rnd k s = Some (s', k') -> status s' = PLAYING).
  { intros Hself s' k' Htick. apply hitsSelf_not_bodySegment in Hself.
    unfold tick in Htick.
    destruct (samePoint newHead (food s)) eqn:Hfood.
    - rewrite (moveSnake_growth fuel rnd k s currentHead rest Hst Hsn)
        in Htick by (rewrite <- ?Hnew; assumption).
      destruct (getRandomPosition fuel rnd k
                  (advance currentHead (direction s) :: snake s))
        as [[newFood k''] |]; [| discriminate].
      simpl in Htick. injection Htick as <- _. commit_fields. exact Hst.
    - rewrite (moveSnake_plain fuel rnd k s currentHead rest Hst Hsn)
        in Htick by (rewrite <- ?Hnew; assumption).
      simpl in Htick. injection Htick as <- _. commit_fields. exact Hst. }
  split; [split |].
  - intros [s' [k' [Htick Hover]]].
    destruct (hitsSelf (snake s) newHead) eqn:Hself.
    + now apply hitsSelf_bodySegment.
    + apply hitsSelf_not_bodySegment in Hself.
      rewrite (Free Hself s' k' Htick) in Hover. discriminate.
  - intros Hself. apply hitsSelf_bodySegment in Hself. unfold tick.
    rewrite (moveSnake_self fuel rnd k s currentHead rest Hst Hsn)
      by (rewrite <- ?Hnew; assumption).
    simpl commitResult. eexists; eexists; split; [reflexivity |].
    commit_fields. reflexivity.
  - exact Free.
Qed.

Lemma tick_self_collision_witness :
  ((exists s' k',
       tick 1 zeros 0 coiled = Some (s', k') /\ status s' = GAME_OVER)
   <-> bodySegment (snake coiled) (mkPoint 6 5))
  /\
  (~ bodySegment (snake coiled) (mkPoint 6 5) ->
   forall s' k', tick 1 zeros 0 coiled = Some (s', k') -> status s' = PLAYING).
Proof.
  apply (tick_self_collision coiled (mkPoint 5 5)
           [mkPoint 5 6; mkPoint 6 6; mkPoint 6 5; mkPoint 7 5] (mkPoint 6 5)
           1%nat zeros 0%nat).
  - reflexivity.
  - reflexivity.
  - reflexivity.
  - unfold inBounds, GRID_SIZE; simpl; lia.
Defined.

(** ** Direction requests *)

Lemma isOppositeDirection_opposite (dir1 dir2 : Direction) :
  isOppositeDirection dir1 dir2 = true <-> dir1 = opposite dir2.
Proof.
  destruct dir1, dir2; simpl; split; intros H;
    first [reflexivity | discriminate H].
Qed.

(** C5.  A direction request makes the requested direction the buffered
    one when it is not the reversal of the direction applied in the last
    tick, and leaves the buffered direction alone when it is; with UP
    applied last, requesting DOWN changes nothing. *)
Theorem handleDirection_buffered :
  (forall (requested : Direction) (s : App),
      requested <> opposite (lastProcessedDirection s) ->
      direction (handleDirection requested s) = requested)
  /\
  (forall (requested : Direction) (s : App),
      requested = opposite (lastProcessedDirection s) ->
      direction (handleDirection requested s) = direction s)
  /\
  (forall s : App,
      lastProcessedDirection s = UP ->
      handleDirection DOWN s = s).
Proof.
  split; [| split].
  - intros requested s Hopp. unfold handleDirection.
    destruct (isOppositeDirection requested (lastProcessedDirection s)) eqn:E.
    + apply isOppositeDirection_opposite in E. contradiction.
    + reflexivity.
  - intros requested s Hopp. unfold handleDirection.
    apply isOppositeDirection_opposite in Hopp. now rewrite Hopp.
  - intros s Hlast. unfold handleDirection. now rewrite Hlast.
Qed.

Lemma handleDirection_buffered_witness :
  direction (handleDirection LEFT midGame) = LEFT /\
  direction (handleDirection DOWN midGame) = direction midGame /\
  handleDirection DOWN midGame = midGame.
Proof.
  split; [| split].
  - apply (proj1 handleDirection_buffered LEFT midGame). discriminate.
  - apply (proj1 (proj2 handleDirection_buffered) DOWN midGame). reflexivity.
  - apply (proj2 (proj2 handleDirection_buffered) midGame). reflexivity.
Defined.

(** ** The outcomes of the handlers *)

Lemma moveSnake_outcome (fuel : nat) (rnd : Random) (k : nat) (s s' : App)
    (k' : nat) :
  moveSnake fuel rnd k s = Some (s', k') -> Outcome s s'.
Proof.
  intros Hmove.
  destruct (GameStatus_eqb (status s) PLAYING) eqn:Hplay.
  - assert (Hst : status s = PLAYING) by (destruct (status s); now try discriminate).
    destruct (snake s) as [| currentHead rest] eqn:Hsn.
    + unfold moveSnake in Hmove. rewrite Hplay, Hsn in Hmove. simpl in Hmove.
      injection Hmove as <- _. now apply outcome_empty.
    + destruct (hitsWall (advance currentHead (direction s))) eqn:Hwall.
      * rewrite (moveSnake_wall fuel rnd k s currentHead rest Hst Hsn Hwall)
          in Hmove.
        injection Hmove as <- _.
        apply (outcome_collision s currentHead rest Hst Hsn). left.
        rewrite <- hitsWall_inBounds. congruence.
      * destruct (hitsSelf (snake s) (advance currentHead (direction s)))
          eqn:Hself.
        { rewrite (moveSnake_self fuel rnd k s currentHead rest Hst Hsn Hwall
                     Hself) in Hmove.
          injection Hmove as <- _.
          apply (outcome_collision s currentHead rest Hst Hsn). right.
          now apply hitsSelf_In. }
        destruct (samePoint (advance currentHead (direction s)) (food s))
          eqn:Hfood.
        { rewrite (moveSnake_growth fuel rnd k s currentHead rest Hst Hsn Hwall
                     Hself Hfood) in Hmove.
          destruct (getRandomPosition fuel rnd k
                      (advance currentHead (direction s) :: snake s))
            as [[newFood k''] |] eqn:Hget; [| discriminate].
          injection Hmove as <- _.
          apply samePoint_eq in Hfood. rewrite Hfood in *.
          apply (outcome_growth s currentHead rest newFood Hst Hsn).
          - rewrite Hfood. now apply hitsWall_inBounds.
          - exact Hfood.
          - apply (getRandomPosition_free _ _ _ _ _ _ Hget). }
        rewrite (moveSnake_plain fuel rnd k s currentHead rest Hst Hsn Hwall
                   Hself Hfood) in Hmove.
        replace (pop (advance currentHead (direction s) :: snake s))
          with (advance currentHead (direction s) :: removelast (snake s))
          in Hmove by (rewrite Hsn; reflexivity).
        injection Hmove as <- _.
        apply (outcome_plain s currentHead rest Hst Hsn).
        -- now apply hitsWall_inBounds.
        -- now apply samePoint_neq.
  - rewrite moveSnake_not_playing in Hmove
      by (intros E; rewrite E in Hplay; discriminate).
    injection Hmove as <- _. apply outcome_not_playing.
    intros E; rewrite E in Hplay; discriminate.
Qed.

Lemma tick_outcome (fuel : nat) (rnd : Random) (k : nat) (s s' : App) (k' : nat) :
  tick fuel rnd k s = Some (s', k') ->
  exists next, Outcome s next /\ s' = commit s next.
Proof.
  unfold tick. destruct (moveSnake fuel rnd k s) as [[next k''] |] eqn:Hmove;
    [| discriminate].
  simpl. intros H. injection H as <- _. exists next.
  split; [now apply moveSnake_outcome in Hmove | reflexivity].
Qed.

Lemma startGame_newGame (fuel : nat) (rnd : Random) (k : nat) (s s' : App)
    (k' : nat) :
  startGame fuel rnd k s = Some (s', k') ->
  exists newFood, s' = newGame newFood (highScore s).
Proof.
  unfold startGame.
  destruct (getRandomPosition fuel rnd k INITIAL_SNAKE) as [[newFood k''] |];
    [| discriminate].
  intros H. injection H as <- _. now exists newFood.
Qed.

Lemma sameBoard_refl (s : App) : sameBoard s s.
Proof. now constructor. Qed.

Lemma handleDirection_cases (newDir : Direction) (s : App) :
  handleDirection newDir s = s \/ handleDirection newDir s = setDirection newDir s.
Proof.
  unfold handleDirection.
  destruct (isOppositeDirection newDir (lastProcessedDirection s));
    [now left | now right].
Qed.

Lemma handleDirection_sameBoard (newDir : Direction) (s : App) :
  sameBoard s (handleDirection newDir s).
Proof.
  destruct (handleDirection_cases newDir s) as [-> | ->]; now constructor.
Qed.

(** A key press either leaves the board alone or, with Space in an IDLE
    or GAME_OVER render, sets up a new game. *)
Lemma handleKeyDown_cases (fuel : nat) (rnd : Random) (k : nat)
    (key code : string) (s s' : App) (k' : nat) :
  handleKeyDown fuel rnd k key code s = Some (s', k') ->
  sameBoard s s' /\ highScore s' = highScore s
  \/ (status s = IDLE \/ status s = GAME_OVER)
     /\ exists newFood, s' = newGame newFood (highScore s).
Proof.
  unfold handleKeyDown.
  set (s1 := match KEY_MAP key with
             | Some mappedDir =>
                 if GameStatus_eqb (status s) IDLE
                 then setStatus PLAYING (handleDirection mappedDir s)
                 else handleDirection mappedDir s
             | None => s
             end).
  assert (Hs1 : sameBoard s s1 /\ highScore s1 = highScore s
                /\ (status s1 = status s
                    \/ status s = IDLE /\ status s1 = PLAYING)).
  { unfold s1. destruct (KEY_MAP key) as [mappedDir |].
    - destruct (handleDirection_cases mappedDir s) as [-> | ->];
        destruct (status s) eqn:Hst; simpl;
        (split; [constructor; simpl; congruence |]);
        (split; [reflexivity |]); rewrite ?Hst; auto.
    - split; [apply sameBoard_refl | auto]. }
  destruct Hs1 as [Hboard [Hhigh Hstatus]].
  destruct (String.eqb code "Space").
  - destruct (status s) eqn:Hst.
    + intros Hstart. right. split; [now left |].
      apply startGame_newGame in Hstart. now rewrite Hhigh in Hstart.
    + intros H. injection H as <- _. left. split; [| exact Hhigh].
      destruct Hboard. constructor; simpl; congruence.
    + intros H. injection H as <- _. left. split; [| exact Hhigh].
      destruct Hboard. constructor; simpl; congruence.
    + intros Hstart. right. split; [now right |].
      apply startGame_newGame in Hstart. now rewrite Hhigh in Hstart.
  - intros H. injection H as <- _. left. now split.
Qed.

(** ** The invariant *)

Lemma Invariant_commit (prev next : App) :
  Invariant next -> Invariant (commit prev next).
Proof.
  intros [Hlen Hin Hsp Hidle]. constructor; commit_fields; assumption.
Qed.

Lemma Invariant_sameBoard (s s' : App) :
  Invariant s -> sameBoard s s' -> Invariant s'.
Proof.
  intros [Hlen Hin Hsp Hidle] [Esn _ Esc Esp Eidle _].
  constructor; rewrite ?Esn, ?Esp, ?Esc; auto.
Qed.

Lemma INITIAL_SNAKE_inBounds : Forall inBounds INITIAL_SNAKE.
Proof.
  unfold INITIAL_SNAKE, inBounds, GRID_SIZE.
  repeat constructor; simpl; lia.
Qed.

Lemma Invariant_newGame (newFood : Point) (hs : JSNumber) :
  Invariant (newGame newFood hs).
Proof.
  constructor; simpl.
  - lia.
  - apply INITIAL_SNAKE_inBounds.
  - unfold MIN_SPEED, INITIAL_SPEED. lia.
  - discriminate.
Qed.

Lemma Invariant_outcome (s s' : App) :
  Invariant s -> Outcome s s' -> Invariant s'.
Proof.
  intros Hinv Hout. pose proof Hinv as [Hlen Hin Hsp Hidle].
  destruct Hout as [Hst | Hst Hsn | h t Hst Hsn _ | h t Hst Hsn Hnew Hfood
                   | h t newFood Hst Hsn Hnew Hfood Hfree].
  - assumption.
  - rewrite Hsn in Hlen. simpl in Hlen. lia.
  - constructor; simpl; [assumption | assumption | assumption | discriminate].
  - constructor; simpl.
    + assert (Hne : snake s <> []) by (rewrite Hsn; discriminate).
      pose proof (removelast_length _ (snake s) Hne). lia.
    + constructor; [assumption | now apply Forall_removelast].
    + assumption.
    + rewrite Hst. discriminate.
  - constructor; simpl.
    + lia.
    + constructor; [rewrite <- Hfood |]; assumption.
    + unfold MIN_SPEED, INITIAL_SPEED, SPEED_DECREMENT in *. lia.
    + rewrite Hst. discriminate.
Qed.

Lemma Invariant_mount (fuel : nat) (rnd : Random) (k : nat)
    (stored : option string) (s : App) (k' : nat) :
  mount fuel rnd k stored = Some (s, k') -> Invariant s.
Proof.
  unfold mount.
  destruct (getRandomPosition fuel rnd k INITIAL_SNAKE) as [[newPos k''] |];
    [| discriminate].
  intros H. injection H as <- _. apply Invariant_commit.
  assert (Hload : sameBoard firstRender (loadHighScore stored firstRender)).
  { unfold loadHighScore. destruct stored as [[| c str] |]; now constructor. }
  destruct Hload as [Esn _ Esc Esp Eidle _].
  constructor; simpl; rewrite ?Esn, ?Esp, ?Esc; simpl.
  - lia.
  - apply INITIAL_SNAKE_inBounds.
  - unfold MIN_SPEED, INITIAL_SPEED. lia.
  - auto.
Qed.

Lemma Invariant_dispatch (fuel : nat) (rnd : Random) (k : nat) (e : Event)
    (s s' : App) (k' : nat) :
  Invariant s -> dispatch fuel rnd k e s = Some (s', k') -> Invariant s'.
Proof.
  intros Hinv. destruct e as [key code | d | |]; simpl.
  - destruct (handleKeyDown fuel rnd k key code s) as [[next k''] |] eqn:Hkey;
      [| discriminate].
    simpl. intros H. injection H as <- _. apply Invariant_commit.
    apply handleKeyDown_cases in Hkey.
    destruct Hkey as [[Hboard _] | [_ [newFood ->]]].
    + now apply (Invariant_sameBoard s).
    + apply Invariant_newGame.
  - intros H. injection H as <- _. apply Invariant_commit.
    apply (Invariant_sameBoard s); [assumption | apply handleDirection_sameBoard].
  - destruct (startGame fuel rnd k s) as [[next k''] |] eqn:Hstart;
      [| discriminate].
    simpl. intros H. injection H as <- _. apply Invariant_commit.
    apply startGame_newGame in Hstart. destruct Hstart as [newFood ->].
    apply Invariant_newGame.
  - intros Htick. apply tick_outcome in Htick.
    destruct Htick as [next [Hout ->]]. apply Invariant_commit.
    now apply (Invariant_outcome s).
Qed.

Lemma reachable_Invariant (s : App) : reachable s -> Invariant s.
Proof.
  induction 1 as [rnd fuel k stored s k' _ Hmount
                 | rnd fuel k e s s' k' _ IH _ _ Hstep].
  - now apply Invariant_mount in Hmount.
  - now apply Invariant_dispatch in Hstep.
Qed.

(** ** Some reachable renders *)

Lemma mounted_reachable : reachable mounted.
Proof.
  apply (reach_mount zeros 1 0 None mounted 2);
    [exact zeros_unitDraws | reflexivity].
Defined.

Lemma started_reachable : reachable started.
Proof.
  apply (reach_event zeros 0 2 (KeyDown "ArrowLeft" "ArrowLeft") mounted started 2);
    [exact mounted_reachable | exact zeros_unitDraws | reflexivity | reflexivity].
Defined.

Lemma firstTick_reachable : reachable firstTick.
Proof.
  apply (reach_event zeros 0 2 Timeout started firstTick 2);
    [exact started_reachable | exact zeros_unitDraws | reflexivity | reflexivity].
Defined.

Lemma mounted_firstTick : sameGame mounted firstTick.
Proof.
  apply (game_event zeros 0 2 Timeout mounted started firstTick 2);
    [| discriminate | exact zeros_unitDraws | reflexivity | reflexivity].
  apply (game_event zeros 0 2 (KeyDown "ArrowLeft" "ArrowLeft")
           mounted mounted started 2);
    [apply game_here | discriminate | exact zeros_unitDraws | reflexivity
    | reflexivity].
Defined.

Lemma sameGame_reachable (s s' : App) :
  reachable s -> sameGame s s' -> reachable s'.
Proof.
  intros Hreach. induction 1 as [| rnd fuel k e s s' s'' k' _ IH _ Hfair Hen Hstep].
  - assumption.
  - apply (reach_event rnd fuel k e s' s'' k'); auto.
Qed.

(** ** Starting a game, and what an event does to the speed *)

(** Whatever takes an IDLE or GAME_OVER render to PLAYING leaves the
    seed snake, the initial speed and score 0. *)
Lemma dispatch_start (fuel : nat) (rnd : Random) (k : nat) (e : Event)
    (s s' : App) (k' : nat) :
  Invariant s ->
  status s = IDLE \/ status s = GAME_OVER ->
  dispatch fuel rnd k e s = Some (s', k') ->
  status s' = PLAYING ->
  snake s' = INITIAL_SNAKE /\ speed s' = INITIAL_SPEED /\ score s' = 0.
Proof.
  intros Hinv Hst Hstep Hplay.
  assert (Board : forall next,
             sameBoard s next -> status (commit s next) = PLAYING ->
             snake (commit s next) = INITIAL_SNAKE
             /\ speed (commit s next) = INITIAL_SPEED
             /\ score (commit s next) = 0).
  { intros next [Esn _ Esc Esp _ Eover]. commit_fields. intros Hnext.
    rewrite Esn, Esp, Esc. destruct Hst as [Hidle | Hover].
    - now apply (inv_idle s Hinv).
    - rewrite (Eover Hover) in Hnext. discriminate. }
  destruct e as [key code | d | |]; simpl in Hstep.
  - destruct (handleKeyDown fuel rnd k key code s) as [[next k''] |] eqn:Hkey;
      [| discriminate].
    simpl in Hstep. injection Hstep as <- _.
    apply handleKeyDown_cases in Hkey.
    destruct Hkey as [[Hboard _] | [_ [newFood ->]]].
    + now apply Board.
    + commit_fields. now simpl.
  - injection Hstep as <- _.
    apply Board; [apply handleDirection_sameBoard | assumption].
  - destruct (startGame fuel rnd k s) as [[next k''] |] eqn:Hstart;
      [| discriminate].
    simpl in Hstep. injection Hstep as <- _.
    apply startGame_newGame in Hstart. destruct Hstart as [newFood ->].
    commit_fields. now simpl.
  - apply tick_outcome in Hstep. destruct Hstep as [next [Hout ->]].
    destruct Hout as [_ | Hpl _ | h t Hpl _ _ | h t Hpl _ _ _ | h t f Hpl _ _ _ _];
      try (destruct Hst as [Hst | Hst]; rewrite Hst in Hpl; discriminate).
    apply Board; [apply sameBoard_refl | assumption].
Qed.

(** An event dispatched outside GAME_OVER leaves the speed alone, unless
    it is a tick that eats, which replaces the speed [v] by
    [max(MIN_SPEED, v - SPEED_DECREMENT)]. *)
Lemma dispatch_speed (fuel : nat) (rnd : Random) (k : nat) (e : Event)
    (s s' : App) (k' : nat) :
  Invariant s ->
  status s <> GAME_OVER ->
  enabled e s = true ->
  dispatch fuel rnd k e s = Some (s', k') ->
  speed s' = speed s
  \/ e = Timeout
     /\ (exists currentHead rest,
            snake s = currentHead :: rest
            /\ advance currentHead (direction s) = food s)
     /\ speed s' = Z.max MIN_SPEED (speed s - SPEED_DECREMENT).
Proof.
  intros Hinv Hover Hen Hstep.
  assert (Fresh : forall newFood hs,
             status s = IDLE \/ status s = GAME_OVER ->
             speed (commit s (newGame newFood hs)) = speed s).
  { intros newFood hs [Hidle | Hgo]; [| contradiction].
    commit_fields. simpl. symmetry. now apply (inv_idle s Hinv). }
  destruct e as [key code | d | |]; simpl in Hstep.
  - left.
    destruct (handleKeyDown fuel rnd k key code s) as [[next k''] |] eqn:Hkey;
      [| discriminate].
    simpl in Hstep. injection Hstep as <- _.
    apply handleKeyDown_cases in Hkey.
    destruct Hkey as [[Hboard _] | [Hst [newFood ->]]].
    + commit_fields. apply (board_speed _ _ Hboard).
    + now apply Fresh.
  - left. injection Hstep as <- _. commit_fields.
    apply (board_speed _ _ (handleDirection_sameBoard d s)).
  - left.
    destruct (startGame fuel rnd k s) as [[next k''] |] eqn:Hstart;
      [| discriminate].
    simpl in Hstep. injection Hstep as <- _.
    apply startGame_newGame in Hstart. destruct Hstart as [newFood ->].
    apply Fresh. simpl in Hen. apply orb_true_iff in Hen.
    destruct (status s); simpl in Hen; destruct Hen; auto; discriminate.
  - apply tick_outcome in Hstep. destruct Hstep as [next [Hout ->]].
    commit_fields.
    destruct Hout as [_ | _ _ | h t _ _ _ | h t _ _ _ _ | h t f _ Hsn _ Hfood _];
      try (left; reflexivity).
    right. split; [reflexivity |]. split; [| reflexivity].
    now exists h, t.
Qed.

(** ** Invariants of the game *)

(** C7.  In every reachable render every segment of the snake is a cell
    of the grid. *)
Theorem reachable_snake_inBounds (s : App) :
  reachable s ->
  Forall (fun p => 0 <= x p < GRID_SIZE /\ 0 <= y p < GRID_SIZE) (snake s).
Proof.
  intros Hreach. apply reachable_Invariant in Hreach.
  exact (inv_bounds s Hreach).
Qed.

Lemma reachable_snake_inBounds_witness :
  Forall (fun p => 0 <= x p < GRID_SIZE /\ 0 <= y p < GRID_SIZE)
         (snake firstTick).
Proof.
  apply (reachable_snake_inBounds firstTick). exact firstTick_reachable.
Defined.

(** ** Moving onto the body and onto the tail *)

Example tick_onto_body :
  option_map (fun r => status (fst r)) (tick 0 zeros 0 coiled) = Some GAME_OVER.
Proof. reflexivity. Qed.

(** Chasing the tail: the head enters the cell the tail is leaving. *)
Example tick_onto_tail :
  tick 0 zeros 0
    (setSnake [mkPoint 5 5; mkPoint 5 6; mkPoint 6 6; mkPoint 6 5]
       (setDirection RIGHT (setFood (mkPoint 3 3) midGame)))
  = Some (setSnake [mkPoint 6 5; mkPoint 5 5; mkPoint 5 6; mkPoint 6 6]
            (setLastProcessedDirection RIGHT
               (setDirection RIGHT (setFood (mkPoint 3 3) midGame))), 0%nat).
Proof. reflexivity. Qed.

(** With the food on the tail cell the move is a growth move all the
    same, and the grown snake holds that cell twice. *)
Example tick_onto_tail_eating :
  option_map (fun r => (status (fst r), snake (fst r)))
    (tick 1 zeros 0
       (setSnake [mkPoint 5 5; mkPoint 5 6; mkPoint 6 6; mkPoint 6 5]
          (setDirection RIGHT (setFood (mkPoint 6 5) midGame))))
  = Some (PLAYING,
          [mkPoint 6 5; mkPoint 5 5; mkPoint 5 6; mkPoint 6 6; mkPoint 6 5]).
Proof. reflexivity. Qed.

(** ** The stored high score *)

Example parseInt_digits : parseInt "120" = Num 120.
Proof. reflexivity. Qed.

Example parseInt_prefix : parseInt "  -42xyz" = Num (-42).
Proof. reflexivity. Qed.

Example parseInt_no_digit : parseInt "abc" = NaN.
Proof. reflexivity. Qed.

(** With nothing stored, or the empty string, the high score is 0. *)
Lemma mount_no_high_score (fuel : nat) (rnd : Random) (k : nat)
    (stored : option string) (s : App) (k' : nat) :
  stored = None \/ stored = Some EmptyString ->
  mount fuel rnd k stored = Some (s, k') ->
  highScore s = Num 0.
Proof.
  intros Hstored. unfold mount.
  destruct (getRandomPosition fuel rnd k INITIAL_SNAKE) as [[newPos k''] |];
    [| discriminate].
  intros H. injection H as <- _.
  destruct Hstored as [-> | ->]; reflexivity.
Qed.

(** A stored string without a leading integer puts [NaN] in the high
    score. *)
Lemma mount_NaN (fuel : nat) (rnd : Random) (k : nat) (c : ascii) (str : string)
    (s : App) (k' : nat) :
  parseInt (String c str) = NaN ->
  mount fuel rnd k (Some (String c str)) = Some (s, k') ->
  highScore s = NaN.
Proof.
  intros Hparse. unfold mount.
  destruct (getRandomPosition fuel rnd k INITIAL_SNAKE) as [[newPos k''] |];
    [| discriminate].
  intros H. injection H as <- _.
  unfold loadHighScore. rewrite Hparse. reflexivity.
Qed.

Lemma Outcome_highScore (s s' : App) :
  Outcome s s' -> highScore s' = highScore s.
Proof. destruct 1; reflexivity. Qed.

Lemma commit_NaN (prev next : App) :
  highScore next = NaN -> highScore (commit prev next) = NaN.
Proof.
  intros Hnan. unfold commit.
  destruct ((score next =? score prev) && js_is (highScore next) (highScore prev));
    [assumption |].
  unfold updateHighScore. rewrite Hnan. simpl. assumption.
Qed.

(** Once [NaN], the high score stays [NaN] whatever happens: no score
    compares greater. *)
Lemma dispatch_NaN (fuel : nat) (rnd : Random) (k : nat) (e : Event)
    (s s' : App) (k' : nat) :
  highScore s = NaN ->
  dispatch fuel rnd k e s = Some (s', k') ->
  highScore s' = NaN.
Proof.
  intros Hnan. destruct e as [key code | d | |]; simpl.
  - destruct (handleKeyDown fuel rnd k key code s) as [[next k''] |] eqn:Hkey;
      [| discriminate].
    simpl. intros H. injection H as <- _. apply commit_NaN.
    apply handleKeyDown_cases in Hkey.
    destruct Hkey as [[_ Hhigh] | [_ [newFood ->]]]; [congruence | exact Hnan].
  - intros H. injection H as <- _. apply commit_NaN.
    destruct (handleDirection_cases d s) as [-> | ->]; exact Hnan.
  - destruct (startGame fuel rnd k s) as [[next k''] |] eqn:Hstart;
      [| discriminate].
    simpl. intros H. injection H as <- _. apply commit_NaN.
    apply startGame_newGame in Hstart. destruct Hstart as [newFood ->].
    exact Hnan.
  - intros Htick. apply tick_outcome in Htick.
    destruct Htick as [next [Hout ->]]. apply commit_NaN.
    now rewrite (Outcome_highScore s next Hout).
Qed.

(** C8 on the code.  With "abc" stored under the high-score key the
    component mounts, and its high score is not 0 but [NaN]. *)
Theorem mount_malformed_high_score :
  exists s k',
    mount 1 zeros 0 (Some "abc"%string) = Some (s, k') /\ highScore s = NaN.
Proof.
  exists (setHighScore NaN mounted), 2%nat. split; reflexivity.
Qed.

(** * Further properties of the code *)

(** ** What the handlers leave behind *)

Lemma handled_refl (s : App) : handled s s.
Proof. constructor; auto. Qed.

Lemma handleDirection_handled (newDir : Direction) (s : App) :
  handled s (handleDirection newDir s).
Proof.
  unfold handleDirection.
  destruct (isOppositeDirection newDir (lastProcessedDirection s)) eqn:E;
    simpl; [apply handled_refl |].
  constructor; simpl; auto.
Qed.

Lemma startGame_draw (fuel : nat) (rnd : Random) (k : nat) (s s' : App)
    (k' : nat) :
  startGame fuel rnd k s = Some (s', k') ->
  exists newFood,
    getRandomPosition fuel rnd k INITIAL_SNAKE = Some (newFood, k')
    /\ s' = newGame newFood (highScore s).
Proof.
  unfold startGame.
  destruct (getRandomPosition fuel rnd k INITIAL_SNAKE) as [[newFood k''] |];
    [| discriminate].
  intros H. injection H as <- <-. now exists newFood.
Qed.

(** A key press either is handled on the spot, consuming no random
    number, or (Space in an IDLE or GAME_OVER render) starts a new game
    with the food [getRandomPosition] draws for the seed snake. *)
Lemma handleKeyDown_handled (fuel : nat) (rnd : Random) (k : nat)
    (key code : string) (s s' : App) (k' : nat) :
  handleKeyDown fuel rnd k key code s = Some (s', k') ->
  handled s s' /\ k' = k
  \/ (status s = IDLE \/ status s = GAME_OVER)
     /\ exists newFood,
          getRandomPosition fuel rnd k INITIAL_SNAKE = Some (newFood, k')
          /\ s' = newGame newFood (highScore s).
Proof.
  unfold handleKeyDown.
  set (s1 := match KEY_MAP key with
             | Some mappedDir =>
                 if GameStatus_eqb (status s) IDLE
                 then setStatus PLAYING (handleDirection mappedDir s)
                 else handleDirection mappedDir s
             | None => s
             end).
  assert (Hs1 : handled s s1
                /\ (status s1 = status s
                    \/ status s = IDLE /\ status s1 = PLAYING)).
  { unfold s1. destruct (KEY_MAP key) as [mappedDir |].
    - pose proof (handleDirection_handled mappedDir s) as [? ? ? ? ? ? ? Hst].
      assert (Hsame : status (handleDirection mappedDir s) = status s)
        by (destruct (handleDirection_cases mappedDir s) as [-> | ->];
            reflexivity).
      destruct (status s) eqn:Est; simpl;
        (split; [constructor; simpl; rewrite ?Est; auto |]); auto.
    - split; [apply handled_refl | auto]. }
  destruct Hs1 as [[Hsn Hfo Hsc Hsp Hhi Hla Hdi _] Hstatus].
  destruct (String.eqb code "Space").
  - destruct (status s) eqn:Hst.
    + intros Hstart. right. split; [now left |].
      apply startGame_draw in Hstart. now rewrite Hhi in Hstart.
    + intros H. injection H as <- <-. left. split; [| reflexivity].
      constructor; simpl; auto.
    + intros H. injection H as <- <-. left. split; [| reflexivity].
      constructor; simpl; auto 6.
    + intros Hstart. right. split; [now right |].
      apply startGame_draw in Hstart. now rewrite Hhi in Hstart.
  - intros H. injection H as <- <-. left. split; [| reflexivity].
    constructor; auto.
    destruct Hstatus as [-> | [E1 E2]]; auto.
Qed.

Lemma handled_sameBoard (s s' : App) : handled s s' -> sameBoard s s'.
Proof.
  intros [Hsn Hfo Hsc Hsp _ _ _ Hst]. constructor; auto.
  - intros E. destruct Hst as [<- | [[_ H] | [[_ H] | [_ H]]]];
      congruence.
  - intros E. destruct Hst as [-> | [[H _] | [[H _] | [H _]]]];
      congruence.
Qed.

(** ** The coherence of board and counters *)

Lemma advance_back (p : Point) (d d' : Direction) :
  advance (advance p d) d' = p -> d' = opposite d.
Proof.
  destruct p as [px py], d, d'; simpl; intros E; injection E;
    intros; first [reflexivity | lia].
Qed.

Lemma In_removelast (A : Type) (a : A) (l : list A) :
  In a (removelast l) -> In a l.
Proof.
  induction l as [| b [| c r] IH]; simpl; auto.
  intros [-> | H]; [now left | right; now apply IH].
Qed.

Lemma NoDup_removelast (A : Type) (l : list A) :
  NoDup l -> NoDup (removelast l).
Proof.
  induction 1 as [| a l Hnotin Hnd IH].
  - constructor.
  - destruct l as [| b r]; [constructor |].
    change (removelast (a :: b :: r)) with (a :: removelast (b :: r)).
    constructor; [| assumption].
    intros Hin. apply Hnotin. now apply In_removelast.
Qed.

Lemma isOppositeDirection_self (d : Direction) : isOppositeDirection d d = false.
Proof. now destruct d. Qed.

Lemma Coherent_commit (prev next : App) :
  Coherent next -> Coherent (commit prev next).
Proof.
  intros [H1 H2 H3 H4 H5 H6 H7]. constructor; commit_fields; assumption.
Qed.

Lemma Coherent_handled (s s' : App) :
  Coherent s -> handled s s' -> Coherent s'.
Proof.
  intros [H1 H2 H3 H4 H5 H6 H7] Hh.
  pose proof (handled_sameBoard s s' Hh) as [_ _ _ _ _ Hover].
  destruct Hh as [Hsn Hfo Hsc Hsp _ Hla Hdi _].
  constructor; rewrite ?Hsn, ?Hfo, ?Hsc, ?Hsp, ?Hla; try assumption.
  - destruct Hdi as [-> | Hdi]; assumption.
  - intros Hst. apply H7. intros E. apply Hst. now apply Hover.
Qed.

Lemma Coherent_newGame (rnd : Random) (fuel k : nat) (newFood : Point)
    (k' : nat) (hs : JSNumber) :
  unitDraws rnd ->
  getRandomPosition fuel rnd k INITIAL_SNAKE = Some (newFood, k') ->
  Coherent (newGame newFood hs).
Proof.
  intros Hdraws Hget. constructor; simpl.
  - apply (getRandomPosition_free _ _ _ _ _ _ Hget).
  - apply (getRandomPosition_inBounds _ _ _ _ _ _ Hdraws Hget).
  - unfold INITIAL_SNAKE. repeat constructor; simpl;
      intuition discriminate.
  - reflexivity.
  - reflexivity.
  - reflexivity.
  - intros _ currentHead neck rest E. injection E as <- <- _. reflexivity.
Qed.

Lemma Coherent_gameOver (s : App) :
  Coherent s -> Coherent (gameOver (applied s)).
Proof.
  intros [H1 H2 H3 H4 H5 H6 H7]. constructor; simpl; try assumption.
  - apply isOppositeDirection_self.
  - intros E. now contradiction E.
Qed.

Lemma Coherent_moveSnake (fuel : nat) (rnd : Random) (k : nat) (s s' : App)
    (k' : nat) :
  unitDraws rnd ->
  Invariant s ->
  Coherent s ->
  moveSnake fuel rnd k s = Some (s', k') ->
  Coherent s'.
Proof.
  intros Hdraws Hinv Hcoh Hmove. pose proof (inv_length s Hinv) as Hlen.
  pose proof Hcoh as [Hfree Hfin Hnd Hsc Hsp Hturn Hneck].
  destruct (GameStatus_eqb (status s) PLAYING) eqn:Hplay.
  2: { rewrite moveSnake_not_playing in Hmove
         by (intros E; rewrite E in Hplay; discriminate).
       injection Hmove as <- _. assumption. }
  assert (Hst : status s = PLAYING)
    by (destruct (status s); now try discriminate).
  destruct (snake s) as [| h t] eqn:Hsn; [simpl in Hlen; lia |].
  destruct (hitsWall (advance h (direction s))) eqn:Hwall.
  { rewrite (moveSnake_wall fuel rnd k s h t Hst Hsn Hwall) in Hmove.
    injection Hmove as <- _. now apply Coherent_gameOver. }
  destruct (hitsSelf (snake s) (advance h (direction s))) eqn:Hself.
  { rewrite (moveSnake_self fuel rnd k s h t Hst Hsn Hwall Hself) in Hmove.
    injection Hmove as <- _. now apply Coherent_gameOver. }
  destruct (samePoint (advance h (direction s)) (food s)) eqn:Hfood.
  - rewrite (moveSnake_growth fuel rnd k s h t Hst Hsn Hwall Hself Hfood)
      in Hmove.
    destruct (getRandomPosition fuel rnd k (advance h (direction s) :: snake s))
      as [[newFood k''] |] eqn:Hget; [| discriminate].
    injection Hmove as <- _. apply samePoint_eq in Hfood.
    rewrite Hsn in *.
    constructor; cbn [snake food score speed direction status
                      lastProcessedDirection setSnake setFood setSpeed
                      setScore setLastProcessedDirection].
    + apply (getRandomPosition_free _ _ _ _ _ _ Hget).
    + apply (getRandomPosition_inBounds _ _ _ _ _ _ Hdraws Hget).
    + constructor; [rewrite Hfood |]; assumption.
    + rewrite Hsc. cbn [List.length]. lia.
    + rewrite Hsp. cbn [List.length].
      unfold MIN_SPEED, INITIAL_SPEED, SPEED_DECREMENT. lia.
    + apply isOppositeDirection_self.
    + intros _ currentHead neck rest E. injection E as <- <- _. reflexivity.
  - rewrite (moveSnake_plain fuel rnd k s h t Hst Hsn Hwall Hself Hfood)
      in Hmove.
    injection Hmove as <- _.
    apply samePoint_neq in Hfood. apply hitsSelf_not_In in Hself.
    rewrite Hsn in *.
    assert (Hpop : pop (advance h (direction s) :: h :: t)
                   = advance h (direction s) :: removelast (h :: t))
      by reflexivity.
    pose proof (removelast_length _ (h :: t) ltac:(discriminate)) as Hrl.
    constructor; cbn [snake food score speed direction status
                      lastProcessedDirection setSnake
                      setLastProcessedDirection]; rewrite ?Hpop.
    + intros [E | Hin]; [congruence |].
      apply Hfree. now apply In_removelast.
    + assumption.
    + constructor; [assumption | now apply NoDup_removelast].
    + rewrite Hsc. cbn [List.length] in *. unfold pop in *. lia.
    + rewrite Hsp. cbn [List.length] in *. unfold pop in *.
      do 2 f_equal. lia.
    + apply isOppositeDirection_self.
    + intros _ currentHead neck rest E.
      destruct t as [| n t']; [discriminate |].
      change (removelast (h :: n :: t')) with (h :: removelast (n :: t')) in E.
      injection E as <- <- _. reflexivity.
Qed.

Lemma Coherent_mount (fuel : nat) (rnd : Random) (k : nat)
    (stored : option string) (s : App) (k' : nat) :
  unitDraws rnd ->
  mount fuel rnd k stored = Some (s, k') ->
  Coherent s.
Proof.
  intros Hdraws. unfold mount.
  destruct (getRandomPosition fuel rnd k INITIAL_SNAKE) as [[newPos k''] |]
    eqn:Hget; [| discriminate].
  intros H. injection H as <- _. apply Coherent_commit.
  pose proof (Coherent_newGame rnd fuel k newPos k'' (Num 0) Hdraws Hget)
    as [H1 H2 H3 H4 H5 H6 H7].
  assert (Hload : loadHighScore stored firstRender = firstRender
                  \/ exists hs, loadHighScore stored firstRender
                                = setHighScore hs firstRender).
  { unfold loadHighScore. destruct stored as [[| c str] |]; eauto. }
  destruct Hload as [-> | [hs ->]]; constructor; simpl; try assumption;
    try reflexivity;
    intros _ currentHead neck rest E; injection E as <- <- _; reflexivity.
Qed.

Lemma Coherent_dispatch (fuel : nat) (rnd : Random) (k : nat) (e : Event)
    (s s' : App) (k' : nat) :
  unitDraws rnd ->
  Invariant s ->
  Coherent s ->
  dispatch fuel rnd k e s = Some (s', k') ->
  Coherent s'.
Proof.
  intros Hdraws Hinv Hcoh. destruct e as [key code | d | |]; simpl.
  - destruct (handleKeyDown fuel rnd k key code s) as [[next k''] |] eqn:Hkey;
      [| discriminate].
    simpl. intros H. injection H as <- _. apply Coherent_commit.
    apply handleKeyDown_handled in Hkey.
    destruct Hkey as [[Hh _] | [_ [newFood [Hget ->]]]].
    + now apply (Coherent_handled s).
    + now apply (Coherent_newGame rnd fuel k newFood k'').
  - intros H. injection H as <- _. apply Coherent_commit.
    apply (Coherent_handled s); [assumption | apply handleDirection_handled].
  - destruct (startGame fuel rnd k s) as [[next k''] |] eqn:Hstart;
      [| discriminate].
    simpl. intros H. injection H as <- _. apply Coherent_commit.
    apply startGame_draw in Hstart. destruct Hstart as [newFood [Hget ->]].
    now apply (Coherent_newGame rnd fuel k newFood k'').
  - unfold tick.
    destruct (moveSnake fuel rnd k s) as [[next k''] |] eqn:Hmove;
      [| discriminate].
    simpl. intros H. injection H as <- _. apply Coherent_commit.
    now apply (Coherent_moveSnake fuel rnd k s next k'').
Qed.

Lemma reachable_Coherent (s : App) : reachable s -> Coherent s.
Proof.
  induction 1 as [rnd fuel k stored s k' Hdraws Hmount
                 | rnd fuel k e s s' k' Hreach IH Hdraws _ Hstep].
  - now apply (Coherent_mount fuel rnd k stored s k').
  - apply (Coherent_dispatch fuel rnd k e s s' k'); auto.
    now apply reachable_Invariant.
Qed.

(** ** Food, snake and counters in reachable renders *)

(** X1.  In every reachable render the food lies on a cell of the grid
    that no segment of the snake occupies. *)
Theorem reachable_food_free (s : App) :
  reachable s -> inBounds (food s) /\ ~ In (food s) (snake s).
Proof.
  intros Hreach. apply reachable_Coherent in Hreach.
  split; [exact (coh_food_in s Hreach) | exact (coh_food_free s Hreach)].
Qed.

Lemma reachable_food_free_witness :
  inBounds (food firstTick) /\ ~ In (food firstTick) (snake firstTick).
Proof.
  apply (reachable_food_free firstTick). exact firstTick_reachable.
Defined.

Lemma gridCells_length : List.length gridCells = 400%nat.
Proof. reflexivity. Qed.

(** X2.  In every reachable render no two segments of the snake share a
    cell, so the snake never has more segments than the grid has
    cells. *)
Theorem reachable_snake_NoDup (s : App) :
  reachable s ->
  NoDup (snake s)
  /\ Z.of_nat (List.length (snake s)) <= GRID_SIZE * GRID_SIZE.
Proof.
  intros Hreach. pose proof (reachable_Coherent s Hreach) as Hcoh.
  pose proof (reachable_Invariant s Hreach) as Hinv.
  split; [exact (coh_nodup s Hcoh) |].
  assert (Hlen : (List.length (snake s) <= List.length gridCells)%nat).
  { apply NoDup_incl_length; [exact (coh_nodup s Hcoh) |].
    intros p Hin. apply gridCells_complete.
    pose proof (inv_bounds s Hinv) as Hall.
    rewrite Forall_forall in Hall. now apply Hall. }
  rewrite gridCells_length in Hlen. unfold GRID_SIZE. lia.
Qed.

Lemma reachable_snake_NoDup_witness :
  NoDup (snake firstTick)
  /\ Z.of_nat (List.length (snake firstTick)) <= GRID_SIZE * GRID_SIZE.
Proof.
  apply (reachable_snake_NoDup firstTick). exact firstTick_reachable.
Defined.

(** X3.  In every reachable render score and speed are functions of the
    length of the snake: 10 points for every segment beyond the three
    of the seed, and SPEED_DECREMENT off INITIAL_SPEED for each of them,
    down to MIN_SPEED. *)
Theorem reachable_score_speed (s : App) :
  reachable s ->
  score s = 10 * (Z.of_nat (List.length (snake s)) - 3)
  /\ speed s =
     Z.max MIN_SPEED
       (INITIAL_SPEED
        - SPEED_DECREMENT * (Z.of_nat (List.length (snake s)) - 3)).
Proof.
  intros Hreach. apply reachable_Coherent in Hreach.
  split; [exact (coh_score s Hreach) | exact (coh_speed s Hreach)].
Qed.

Lemma reachable_score_speed_witness :
  score firstTick = 10 * (Z.of_nat (List.length (snake firstTick)) - 3)
  /\ speed firstTick =
     Z.max MIN_SPEED
       (INITIAL_SPEED
        - SPEED_DECREMENT * (Z.of_nat (List.length (snake firstTick)) - 3)).
Proof.
  apply (reachable_score_speed firstTick). exact firstTick_reachable.
Defined.

(** X4.  In every reachable render the buffered direction is not the
    reversal of the direction applied last, and, unless the game is
    over, the cell the next tick would move the head to is not the
    segment right behind the head. *)
Theorem reachable_no_reversal (s : App) :
  reachable s ->
  direction s <> opposite (lastProcessedDirection s)
  /\
  (status s <> GAME_OVER ->
   forall currentHead neck rest,
     snake s = currentHead :: neck :: rest ->
     advance currentHead (direction s) <> neck).
Proof.
  intros Hreach. apply reachable_Coherent in Hreach.
  assert (Hturn : direction s <> opposite (lastProcessedDirection s)).
  { intros E. apply isOppositeDirection_opposite in E.
    rewrite (coh_turn s Hreach) in E. discriminate. }
  split; [exact Hturn |].
  intros Hst currentHead neck rest Hsn Hback.
  rewrite (coh_neck s Hreach Hst currentHead neck rest Hsn) in Hback.
  apply advance_back in Hback. contradiction.
Qed.

Lemma reachable_no_reversal_witness :
  direction firstTick <> opposite (lastProcessedDirection firstTick)
  /\
  (status firstTick <> GAME_OVER ->
   forall currentHead neck rest,
     snake firstTick = currentHead :: neck :: rest ->
     advance currentHead (direction firstTick) <> neck).
Proof.
  apply (reachable_no_reversal firstTick). exact firstTick_reachable.
Defined.

(** ** The high score *)

Lemma js_is_eq (a b : JSNumber) : js_is a b = true -> a = b.
Proof.
  destruct a, b; simpl; try discriminate; [| reflexivity].
  intros E. apply Z.eqb_eq in E. now subst.
Qed.

Lemma scoreBelowHigh_commit (prev next : App) :
  scoreBelowHigh prev -> scoreBelowHigh (commit prev next).
Proof.
  intros Hprev h. unfold commit.
  destruct ((score next =? score prev) && js_is (highScore next) (highScore prev))
    eqn:Hdeps.
  - apply andb_true_iff in Hdeps. destruct Hdeps as [Hs Hh].
    apply Z.eqb_eq in Hs. apply js_is_eq in Hh. rewrite Hs, Hh. apply Hprev.
  - unfold updateHighScore.
    destruct (js_gt (Num (score next)) (highScore next)) eqn:Hgt; simpl.
    + intros E. injection E as <-. lia.
    + intros E. rewrite E in Hgt. simpl in Hgt. apply Z.ltb_ge in Hgt.
      exact Hgt.
Qed.

Lemma reachable_scoreBelowHigh (s : App) : reachable s -> scoreBelowHigh s.
Proof.
  induction 1 as [rnd fuel k stored s k' _ Hmount
                 | rnd fuel k e s s' k' _ IH _ _ Hstep].
  - unfold mount in Hmount.
    destruct (getRandomPosition fuel rnd k INITIAL_SNAKE) as [[newPos k''] |];
      [| discriminate].
    injection Hmount as <- _. apply scoreBelowHigh_commit.
    intros h E. injection E as <-. simpl. lia.
  - destruct e as [key code | d | |]; simpl in Hstep.
    + destruct (handleKeyDown fuel rnd k key code s) as [[next k''] |];
        [| discriminate].
      injection Hstep as <- _. now apply scoreBelowHigh_commit.
    + injection Hstep as <- _. now apply scoreBelowHigh_commit.
    + destruct (startGame fuel rnd k s) as [[next k''] |]; [| discriminate].
      injection Hstep as <- _. now apply scoreBelowHigh_commit.
    + unfold tick in Hstep.
      destruct (moveSnake fuel rnd k s) as [[next k''] |]; [| discriminate].
      injection Hstep as <- _. now apply scoreBelowHigh_commit.
Qed.

Lemma reachable_score_nonneg (s : App) : reachable s -> 0 <= score s.
Proof.
  intros Hreach.
  pose proof (inv_length s (reachable_Invariant s Hreach)) as Hlen.
  rewrite (coh_score s (reachable_Coherent s Hreach)). lia.
Qed.

(** X5.  In every reachable render a numeric high score is at least the
    score, and the score is not negative. *)
Theorem reachable_score_below_highScore (s : App) :
  reachable s ->
  0 <= score s /\ forall h : Z, highScore s = Num h -> score s <= h.
Proof.
  intros Hreach. split.
  - now apply reachable_score_nonneg.
  - now apply reachable_scoreBelowHigh.
Qed.

Lemma reachable_score_below_highScore_witness :
  0 <= score firstTick
  /\ forall h : Z, highScore firstTick = Num h -> score firstTick <= h.
Proof.
  apply (reachable_score_below_highScore firstTick).
  exact firstTick_reachable.
Defined.

(** Every handler and [moveSnake] leave the high score to the commit. *)
Lemma dispatch_next (fuel : nat) (rnd : Random) (k : nat) (e : Event)
    (s s' : App) (k' : nat) :
  dispatch fuel rnd k e s = Some (s', k') ->
  exists next, s' = commit s next /\ highScore next = highScore s.
Proof.
  destruct e as [key code | d | |]; simpl.
  - destruct (handleKeyDown fuel rnd k key code s) as [[next k''] |] eqn:Hkey;
      [| discriminate].
    simpl. intros H. injection H as <- _. exists next. split; [reflexivity |].
    apply handleKeyDown_cases in Hkey.
    destruct Hkey as [[_ Hhigh] | [_ [newFood ->]]]; [assumption | reflexivity].
  - intros H. injection H as <- _. exists (handleDirection d s).
    split; [reflexivity |].
    destruct (handleDirection_cases d s) as [-> | ->]; reflexivity.
  - destruct (startGame fuel rnd k s) as [[next k''] |] eqn:Hstart;
      [| discriminate].
    simpl. intros H. injection H as <- _. exists next. split; [reflexivity |].
    apply startGame_newGame in Hstart. destruct Hstart as [newFood ->].
    reflexivity.
  - intros Htick. apply tick_outcome in Htick.
    destruct Htick as [next [Hout ->]]. exists next.
    split; [reflexivity | now apply Outcome_highScore].
Qed.

(** X6.  No event lowers the high score, and none turns a numeric high
    score into [NaN] or [NaN] into a number. *)
Theorem dispatch_highScore_monotone (fuel : nat) (rnd : Random) (k : nat)
    (e : Event) (s s' : App) (k' : nat) :
  dispatch fuel rnd k e s = Some (s', k') ->
  match highScore s with
  | Num h => exists h', highScore s' = Num h' /\ h <= h'
  | NaN => highScore s' = NaN
  end.
Proof.
  intros Hstep. apply dispatch_next in Hstep.
  destruct Hstep as [next [-> Hhigh]].
  destruct (highScore s) as [h |] eqn:Hs.
  - destruct (commit_shape s next) as [-> | Hc].
    + exists h. split; [assumption | lia].
    + unfold commit in *.
      destruct ((score next =? score s) && js_is (highScore next) (highScore s)).
      * exists h. split; [assumption | lia].
      * unfold updateHighScore in *. rewrite Hhigh in *. simpl in *.
        destruct (h <? score next) eqn:Hlt.
        -- exists (score next). split; [reflexivity |].
           apply Z.ltb_lt in Hlt. lia.
        -- exists h. split; [assumption | lia].
  - now apply commit_NaN.
Qed.

Lemma dispatch_highScore_monotone_witness :
  match highScore midGame with
  | Num h => exists h', highScore fed = Num h' /\ h <= h'
  | NaN => highScore fed = NaN
  end.
Proof.
  apply (dispatch_highScore_monotone 1 zeros 0 Timeout midGame fed 2).
  reflexivity.
Defined.

(** X7.  In a reachable render the start button, when it is there (IDLE
    or GAME_OVER), does set up a new game as soon as [Math.random]
    proposes a cell off the seed snake within the rounds allowed: the
    seed snake heading up with score 0 and the initial speed, food on a
    free cell of the grid, and the high score as it was. *)
Theorem dispatch_StartButton (fuel : nat) (rnd : Random) (k n : nat)
    (s : App) :
  reachable s ->
  unitDraws rnd ->
  enabled StartButton s = true ->
  ~ In (proposal rnd k n) INITIAL_SNAKE ->
  (n < fuel)%nat ->
  exists newFood k',
    dispatch fuel rnd k StartButton s
    = Some (newGame newFood (highScore s), k')
    /\ inBounds newFood
    /\ ~ In newFood INITIAL_SNAKE.
Proof.
  intros Hreach Hdraws _ Hfree Hfuel. apply onSnake_not_In in Hfree.
  destruct (getRandomPosition_finds rnd _ n k fuel Hfree Hfuel)
    as [newFood [k' Hget]].
  exists newFood, k'. split; [| split].
  - simpl. unfold startGame. rewrite Hget. simpl. f_equal. f_equal.
    change (setStatus PLAYING
              (setFood newFood
                 (setSpeed INITIAL_SPEED
                    (setScore 0
                       (setLastProcessedDirection INITIAL_DIRECTION
                          (setDirection INITIAL_DIRECTION
                             (setSnake INITIAL_SNAKE s)))))))
      with (newGame newFood (highScore s)).
    pose proof (reachable_score_nonneg s Hreach) as Hpos.
    pose proof (reachable_scoreBelowHigh s Hreach) as Hhigh.
    unfold scoreBelowHigh in Hhigh.
    assert (Hgt : js_gt (Num (score (newGame newFood (highScore s))))
                        (highScore (newGame newFood (highScore s))) = false).
    { simpl. destruct (highScore s) as [h |]; simpl; [| reflexivity].
      apply Z.ltb_ge. specialize (Hhigh h eq_refl). lia. }
    unfold commit, updateHighScore. rewrite Hgt.
    now destruct ((score (newGame newFood (highScore s)) =? score s)
                  && js_is (highScore (newGame newFood (highScore s)))
                           (highScore s)).
  - apply (getRandomPosition_inBounds _ _ _ _ _ _ Hdraws Hget).
  - apply (getRandomPosition_free _ _ _ _ _ _ Hget).
Qed.

Lemma dispatch_StartButton_witness :
  exists newFood k',
    dispatch 1 zeros 0 StartButton mounted
    = Some (newGame newFood (highScore mounted), k')
    /\ inBounds newFood
    /\ ~ In newFood INITIAL_SNAKE.
Proof.
  apply (dispatch_StartButton 1 zeros 0 0 mounted).
  - exact mounted_reachable.
  - exact zeros_unitDraws.
  - reflexivity.
  - apply onSnake_not_In. reflexivity.
  - lia.
Defined.

(** ** Keys, the D-pad and the status *)

Lemma setStatus_back (st : GameStatus) (s : App) :
  setStatus (status s) (setStatus st s) = s.
Proof. now destruct s. Qed.

(** X8.  Space pauses a PLAYING render, touching nothing but the status,
    and Space again gives back the very render that was paused; neither
    press draws a random number. *)
Theorem pause_resume (fuel : nat) (rnd : Random) (k : nat) (key : string)
    (s : App) :
  status s = PLAYING ->
  KEY_MAP key = None ->
  dispatch fuel rnd k (KeyDown key "Space") s = Some (setStatus PAUSED s, k)
  /\ dispatch fuel rnd k (KeyDown key "Space") (setStatus PAUSED s)
     = Some (s, k).
Proof.
  intros Hst Hkey. simpl. unfold handleKeyDown. rewrite Hkey. simpl.
  rewrite Hst. simpl. rewrite !commit_idle by reflexivity.
  split; [reflexivity |]. rewrite <- Hst. now rewrite setStatus_back.
Qed.

Lemma pause_resume_witness :
  dispatch 0 zeros 0 (KeyDown " " "Space") firstTick
  = Some (setStatus PAUSED firstTick, 0%nat)
  /\ dispatch 0 zeros 0 (KeyDown " " "Space") (setStatus PAUSED firstTick)
     = Some (firstTick, 0%nat).
Proof.
  apply (pause_resume 0 zeros 0 " " firstTick); reflexivity.
Defined.

(** X9.  The status moves along these edges only: IDLE to PLAYING;
    PLAYING to PAUSED or GAME_OVER; PAUSED to PLAYING; GAME_OVER to
    PLAYING; or it stays.  Nothing leads back to IDLE. *)
Theorem dispatch_statusStep (fuel : nat) (rnd : Random) (k : nat) (e : Event)
    (s s' : App) (k' : nat) :
  dispatch fuel rnd k e s = Some (s', k') ->
  statusStep (status s) (status s') = true.
Proof.
  destruct e as [key code | d | |]; simpl.
  - destruct (handleKeyDown fuel rnd k key code s) as [[next k''] |] eqn:Hkey;
      [| discriminate].
    simpl. intros H. injection H as <- _. commit_fields.
    apply handleKeyDown_handled in Hkey.
    destruct Hkey as [[Hh _] | [Hst [newFood [_ ->]]]].
    + destruct (h_status s next Hh) as [-> | [[-> ->] | [[-> ->] | [-> ->]]]];
        try reflexivity.
      now destruct (status s).
    + simpl. destruct Hst as [-> | ->]; reflexivity.
  - intros H. injection H as <- _. commit_fields.
    destruct (handleDirection_cases d s) as [-> | ->]; simpl;
      now destruct (status s).
  - destruct (startGame fuel rnd k s) as [[next k''] |] eqn:Hstart;
      [| discriminate].
    simpl. intros H. injection H as <- _. commit_fields.
    apply startGame_newGame in Hstart. destruct Hstart as [newFood ->].
    simpl. now destruct (status s).
  - intros Htick. apply tick_outcome in Htick.
    destruct Htick as [next [Hout ->]]. commit_fields.
    destruct Hout as [_ | Hst _ | h t Hst _ _ | h t Hst _ _ _ | h t f Hst _ _ _ _];
      simpl; rewrite ?Hst; try reflexivity.
    now destruct (status s).
Qed.

Lemma dispatch_statusStep_witness :
  statusStep (status midGame) (status fed) = true.
Proof.
  apply (dispatch_statusStep 1 zeros 0 Timeout midGame fed 2). reflexivity.
Defined.

(** X10.  While the game is paused nothing on the board moves: whatever
    can happen leaves snake, food, score, speed, high score and the
    applied direction as they are and draws no random number; only the
    buffered direction can change, to a direction that is not the
    reversal of the applied one, and the status, to PLAYING. *)
Theorem paused_frozen (fuel : nat) (rnd : Random) (k : nat) (e : Event)
    (s s' : App) (k' : nat) :
  status s = PAUSED ->
  enabled e s = true ->
  dispatch fuel rnd k e s = Some (s', k') ->
  handled s s' /\ k' = k /\ (status s' = PAUSED \/ status s' = PLAYING).
Proof.
  intros Hst Hen Hstep.
  assert (Hkeep : forall next,
             handled s next ->
             handled s (commit s next)
             /\ (status (commit s next) = PAUSED
                 \/ status (commit s next) = PLAYING)).
  { intros next Hh.
    rewrite commit_idle by (apply (h_score s next Hh) || apply (h_highScore s next Hh)).
    split; [assumption |].
    destruct (h_status s next Hh) as [E | [[E _] | [[E _] | [_ E]]]];
      rewrite ?E; try congruence; auto. }
  destruct e as [key code | d | |]; simpl in Hstep, Hen.
  - destruct (handleKeyDown fuel rnd k key code s) as [[next k''] |] eqn:Hkey;
      [| discriminate].
    simpl in Hstep. injection Hstep as <- <-.
    apply handleKeyDown_handled in Hkey.
    destruct Hkey as [[Hh ->] | [[E | E] _]]; try congruence.
    destruct (Hkeep next Hh). auto.
  - injection Hstep as <- <-.
    destruct (Hkeep _ (handleDirection_handled d s)). auto.
  - rewrite Hst in Hen. discriminate.
  - rewrite Hst in Hen. discriminate.
Qed.

Lemma paused_frozen_witness :
  handled (setStatus PAUSED firstTick) (setDirection UP (setStatus PAUSED firstTick))
  /\ 0%nat = 0%nat
  /\ (status (setDirection UP (setStatus PAUSED firstTick)) = PAUSED
      \/ status (setDirection UP (setStatus PAUSED firstTick)) = PLAYING).
Proof.
  apply (paused_frozen 0 zeros 0 (DPad UP) (setStatus PAUSED firstTick)
           (setDirection UP (setStatus PAUSED firstTick)) 0);
    reflexivity.
Defined.

(** X11.  A key that is neither in KEY_MAP nor a name the table
    inherits from [Object.prototype], and whose code is not Space,
    changes nothing, in any render. *)
Theorem unmapped_key_ignored (fuel : nat) (rnd : Random) (k : nat)
    (key code : string) (s : App) :
  KEY_MAP key = None ->
  inheritedName key = false ->
  code <> "Space"%string ->
  dispatch fuel rnd k (KeyDown key code) s = Some (s, k).
Proof.
  intros Hkey _ Hcode. apply String.eqb_neq in Hcode.
  simpl. unfold handleKeyDown. rewrite Hkey, Hcode. simpl.
  now rewrite commit_idle.
Qed.

Lemma unmapped_key_ignored_witness :
  dispatch 0 zeros 0 (KeyDown "Enter" "Enter") firstTick
  = Some (firstTick, 0%nat).
Proof.
  apply (unmapped_key_ignored 0 zeros 0 "Enter" "Enter" firstTick).
  - reflexivity.
  - reflexivity.
  - discriminate.
Defined.

Lemma handleDirection_lastProcessedDirection (d : Direction) (s : App) :
  lastProcessedDirection (handleDirection d s) = lastProcessedDirection s.
Proof. destruct (handleDirection_cases d s) as [-> | ->]; reflexivity. Qed.

(** X12.  Direction requests between two ticks compose: asking twice is
    asking once, a request that is not the reversal of the applied
    direction overrides whatever was requested before it, and a request
    for the reversal leaves the earlier request standing. *)
Theorem handleDirection_compose :
  (forall (d : Direction) (s : App),
      handleDirection d (handleDirection d s) = handleDirection d s)
  /\
  (forall (d1 d2 : Direction) (s : App),
      d2 <> opposite (lastProcessedDirection s) ->
      handleDirection d2 (handleDirection d1 s) = setDirection d2 s)
  /\
  (forall (d1 d2 : Direction) (s : App),
      d2 = opposite (lastProcessedDirection s) ->
      handleDirection d2 (handleDirection d1 s) = handleDirection d1 s).
Proof.
  assert (Legal : forall d1 d2 s,
             isOppositeDirection d2 (lastProcessedDirection s) = false ->
             handleDirection d2 (handleDirection d1 s) = setDirection d2 s).
  { intros d1 d2 s E. unfold handleDirection at 1.
    rewrite handleDirection_lastProcessedDirection, E. simpl.
    destruct (handleDirection_cases d1 s) as [-> | ->]; reflexivity. }
  assert (Illegal : forall d1 d2 s,
             isOppositeDirection d2 (lastProcessedDirection s) = true ->
             handleDirection d2 (handleDirection d1 s) = handleDirection d1 s).
  { intros d1 d2 s E. unfold handleDirection at 1.
    now rewrite handleDirection_lastProcessedDirection, E. }
  split; [| split].
  - intros d s.
    destruct (isOppositeDirection d (lastProcessedDirection s)) eqn:E.
    + now apply Illegal.
    + rewrite (Legal d d s E). unfold handleDirection. now rewrite E.
  - intros d1 d2 s Hd. apply Legal.
    destruct (isOppositeDirection d2 (lastProcessedDirection s)) eqn:E;
      [| reflexivity].
    apply isOppositeDirection_opposite in E. contradiction.
  - intros d1 d2 s Hd. apply Illegal.
    now apply isOppositeDirection_opposite.
Qed.

Lemma handleDirection_compose_witness :
  handleDirection LEFT (handleDirection LEFT midGame) = handleDirection LEFT midGame
  /\ handleDirection RIGHT (handleDirection LEFT midGame) = setDirection RIGHT midGame
  /\ handleDirection DOWN (handleDirection LEFT midGame) = handleDirection LEFT midGame.
Proof.
  split; [| split].
  - apply (proj1 handleDirection_compose LEFT midGame).
  - apply (proj1 (proj2 handleDirection_compose) LEFT RIGHT midGame).
    discriminate.
  - apply (proj2 (proj2 handleDirection_compose) LEFT DOWN midGame).
    reflexivity.
Defined.

(** X13.  In an IDLE render a mapped key (other than one with code
    Space) starts the game on the board as it stands, with the
    direction buffered as for any request; the same request from the
    D-pad is buffered too, but leaves the game IDLE. *)
Theorem idle_key_starts (fuel : nat) (rnd : Random) (k : nat)
    (key code : string) (d : Direction) (s : App) :
  status s = IDLE ->
  KEY_MAP key = Some d ->
  code <> "Space"%string ->
  dispatch fuel rnd k (KeyDown key code) s
  = Some (setStatus PLAYING (handleDirection d s), k)
  /\ dispatch fuel rnd k (DPad d) s = Some (handleDirection d s, k)
  /\ status (handleDirection d s) = IDLE.
Proof.
  intros Hst Hkey Hcode. apply String.eqb_neq in Hcode.
  assert (Hsame : status (handleDirection d s) = IDLE)
    by (destruct (handleDirection_cases d s) as [-> | ->]; exact Hst).
  simpl. unfold handleKeyDown. rewrite Hkey, Hcode, Hst. simpl.
  pose proof (handleDirection_handled d s) as Hh.
  rewrite !commit_idle
    by (simpl; apply (h_score s _ Hh) || apply (h_highScore s _ Hh)).
  auto.
Qed.

Lemma idle_key_starts_witness :
  dispatch 0 zeros 0 (KeyDown "a" "KeyA") mounted
  = Some (setStatus PLAYING (handleDirection LEFT mounted), 0%nat)
  /\ dispatch 0 zeros 0 (DPad LEFT) mounted
     = Some (handleDirection LEFT mounted, 0%nat)
  /\ status (handleDirection LEFT mounted) = IDLE.
Proof.
  apply (idle_key_starts 0 zeros 0 "a" "KeyA" LEFT mounted).
  - reflexivity.
  - reflexivity.
  - discriminate.
Defined.

(** ** The rejection loop *)

(** X14.  [getRandomPosition] returns the first position it proposes
    that is off the snake, after two draws for each proposal made, and
    more fuel than that does not change the answer. *)
Theorem getRandomPosition_first_free (rnd : Random) (body : Snake) (n : nat) :
  forall k fuel : nat,
    (forall i, (i < n)%nat -> In (proposal rnd k i) body) ->
    ~ In (proposal rnd k n) body ->
    (n < fuel)%nat ->
    getRandomPosition fuel rnd k body
    = Some (proposal rnd k n, (k + 2 * (n + 1))%nat).
Proof.
  induction n as [| n IH]; intros k fuel Hbusy Hfree Hfuel;
    (destruct fuel as [| fuel]; [lia |]);
    rewrite getRandomPosition_round.
  - apply onSnake_not_In in Hfree. rewrite Hfree. simpl.
    now replace (k + 2 * (0 + 1))%nat with (k + 2)%nat by lia.
  - assert (H0 : onSnake body (proposal rnd k 0) = true)
      by (apply onSnake_In, Hbusy; lia).
    rewrite H0. simpl. rewrite (IH (k + 2)%nat fuel).
    + rewrite proposal_next.
      now replace (k + 2 + 2 * (n + 1))%nat with (k + 2 * (S n + 1))%nat by lia.
    + intros i Hi. rewrite proposal_next. apply Hbusy. lia.
    + now rewrite proposal_next.
    + lia.
Qed.

Lemma getRandomPosition_first_free_witness :
  getRandomPosition 2 halves 0 INITIAL_SNAKE
  = Some (proposal halves 0 1, (0 + 2 * (1 + 1))%nat).
Proof.
  apply (getRandomPosition_first_free halves INITIAL_SNAKE 1 0 2).
  - intros i Hi. assert (E : i = 0%nat) by lia. subst i.
    left. reflexivity.
  - apply onSnake_not_In. reflexivity.
  - lia.
Defined.

(** ** The board *)

Lemma cellKind_pointKind (body : Snake) (foodAt : Point) (over : bool)
    (index : Z) :
  cellKind body foodAt over index = pointKind body foodAt over (cellPoint index).
Proof. reflexivity. Qed.

Lemma cellPoint_cellIndices : map cellPoint cellIndices = gridCells.
Proof. vm_compute. reflexivity. Qed.

Lemma cellIndices_range (index : Z) :
  In index cellIndices <-> 0 <= index < GRID_SIZE * GRID_SIZE.
Proof.
  unfold cellIndices, GRID_SIZE. rewrite in_map_iff. split.
  - intros [n [<- Hin]]. apply in_seq in Hin. lia.
  - intros Hr. exists (Z.to_nat index). split; [lia |]. apply in_seq. lia.
Qed.

(** X15.  The board has one cell for every position of the grid, row by
    row: the cell with index [i] below GRID_SIZE * GRID_SIZE stands for
    the position (i mod GRID_SIZE, i / GRID_SIZE), which is in bounds,
    and the position (x, y) of the grid is shown by the cell with index
    y * GRID_SIZE + x and by no other. *)
Theorem cellPoint_grid :
  (forall index : Z,
      0 <= index < GRID_SIZE * GRID_SIZE ->
      inBounds (cellPoint index))
  /\
  (forall p : Point,
      inBounds p ->
      0 <= y p * GRID_SIZE + x p < GRID_SIZE * GRID_SIZE
      /\ cellPoint (y p * GRID_SIZE + x p) = p)
  /\
  (forall index index' : Z,
      0 <= index < GRID_SIZE * GRID_SIZE ->
      0 <= index' < GRID_SIZE * GRID_SIZE ->
      cellPoint index = cellPoint index' ->
      index = index').
Proof.
  unfold inBounds, cellPoint, GRID_SIZE. split; [| split].
  - intros index Hr. simpl. Z.div_mod_to_equations. lia.
  - intros [px py] [Hx Hy]. simpl in *. split; [lia |].
    f_equal; Z.div_mod_to_equations; lia.
  - intros index index' Hr Hr' E. injection E as Ex Ey.
    Z.div_mod_to_equations. lia.
Qed.

Lemma cellPoint_grid_witness :
  inBounds (cellPoint 210)
  /\ (0 <= y (mkPoint 10 10) * GRID_SIZE + x (mkPoint 10 10)
      < GRID_SIZE * GRID_SIZE
      /\ cellPoint (y (mkPoint 10 10) * GRID_SIZE + x (mkPoint 10 10))
         = mkPoint 10 10)
  /\ 210 = 10 * 20 + 10.
Proof.
  split; [| split].
  - apply (proj1 cellPoint_grid 210). unfold GRID_SIZE. lia.
  - apply (proj1 (proj2 cellPoint_grid) (mkPoint 10 10)).
    unfold inBounds, GRID_SIZE. simpl. lia.
  - apply (proj2 (proj2 cellPoint_grid) 210 (10 * 20 + 10)).
    + unfold GRID_SIZE. lia.
    + unfold GRID_SIZE. lia.
    + reflexivity.
Defined.

Lemma findIndexFrom_cases (f : Point -> bool) (l : Snake) :
  forall index : Z,
    (forall a, In a l -> f a = false) /\ findIndexFrom f index l = -1
    \/ (exists a rest,
           l = a :: rest /\ f a = true /\ findIndexFrom f index l = index)
    \/ (exists a rest,
           l = a :: rest /\ f a = false
           /\ (exists b, In b rest /\ f b = true)
           /\ (0 <= index -> index < findIndexFrom f index l)).
Proof.
  induction l as [| a rest IH]; intros index.
  - left. split; [intros a [] | reflexivity].
  - simpl. destruct (f a) eqn:Ha.
    + right. left. now exists a, rest.
    + destruct (IH (index + 1)) as [[Hnone E] | [[b [r [-> [Hb E]]]]
                                              | [b [r [-> [Hb [Hex E]]]]]]].
      * left. split; [| exact E].
        intros c [<- | Hin]; [exact Ha | now apply Hnone].
      * right. right. exists a, (b :: r). repeat split; try assumption.
        -- exists b. split; [now left | assumption].
        -- simpl in E. simpl. rewrite Hb in *. lia.
      * right. right. exists a, (b :: r). repeat split; try assumption.
        -- destruct Hex as [c [Hin Hc]]. exists c. split; [now right | assumption].
        -- intros Hi. simpl. rewrite Hb. simpl in E. rewrite Hb in E. lia.
Qed.

(** The class names tell the kinds apart, and the board [App] renders is
    the board of kinds under them. *)
Lemma className_inj (c c' : CellKind) : className c = className c' -> c = c'.
Proof.
  destruct c as [| [|] | |], c' as [| [|] | |]; intros E;
    first [reflexivity | discriminate E].
Qed.

Lemma Board_boardKinds (s : App) :
  Board s
  = map (fun c => ("w-full h-full relative " ++ className c)%string)
        (boardKinds s).
Proof. unfold Board, boardKinds. rewrite map_map. reflexivity. Qed.

(** What a cell shows, by the point it stands for. *)
Lemma pointKind_cases (body : Snake) (foodAt : Point) (over : bool) (p : Point) :
  foodAt = p /\ pointKind body foodAt over p = FoodCell
  \/ foodAt <> p /\ hd_error body = Some p
     /\ pointKind body foodAt over p = HeadCell over
  \/ foodAt <> p /\ hd_error body <> Some p /\ In p body
     /\ pointKind body foodAt over p = BodyCell
  \/ foodAt <> p /\ ~ In p body
     /\ pointKind body foodAt over p = EmptyCell.
Proof.
  unfold pointKind, findIndex. destruct (samePoint foodAt p) eqn:Hfood.
  - left. split; [now apply samePoint_eq | reflexivity].
  - right. apply samePoint_neq in Hfood.
    destruct (findIndexFrom_cases (fun segment => samePoint segment p) body 0)
      as [[Hnone E] | [[a [rest [-> [Ha E]]]] | [a [rest [-> [Ha [Hex E]]]]]]].
    + right. right. rewrite E. simpl. repeat split; [assumption |].
      intros Hin. specialize (Hnone p Hin). rewrite samePoint_refl in Hnone.
      discriminate.
    + left. rewrite E. simpl. apply samePoint_eq in Ha. subst a.
      now repeat split.
    + right. left. specialize (E (Z.le_refl 0)).
      replace (findIndexFrom (fun segment => samePoint segment p) 0 (a :: rest) =? 0)
        with false by (symmetry; apply Z.eqb_neq; lia).
      replace (0 <? findIndexFrom (fun segment => samePoint segment p) 0 (a :: rest))
        with true by (symmetry; apply Z.ltb_lt; lia).
      repeat split; [assumption | |].
      * simpl. intros E'. injection E' as ->. rewrite samePoint_refl in Ha.
        discriminate.
      * destruct Hex as [b [Hin Hb]]. apply samePoint_eq in Hb. subst b.
        now right.
Qed.

(** X16.  A cell of the board is drawn as food exactly when it stands
    for the food position; otherwise as head exactly when it stands for
    the first segment of the snake (with the game-over flag passed on),
    as body exactly when it stands for a later segment and not for the
    first, and as empty exactly when no segment is there. *)
Theorem cellKind_shows (body : Snake) (foodAt : Point) (over : bool)
    (index : Z) :
  (cellKind body foodAt over index = FoodCell <-> foodAt = cellPoint index)
  /\
  (cellKind body foodAt over index = HeadCell over
   <-> foodAt <> cellPoint index /\ hd_error body = Some (cellPoint index))
  /\
  (cellKind body foodAt over index = BodyCell
   <-> foodAt <> cellPoint index
       /\ hd_error body <> Some (cellPoint index)
       /\ In (cellPoint index) body)
  /\
  (cellKind body foodAt over index = EmptyCell
   <-> foodAt <> cellPoint index /\ ~ In (cellPoint index) body).
Proof.
  rewrite cellKind_pointKind. set (p := cellPoint index).
  assert (Hhd : hd_error body = Some p -> In p body).
  { destruct body as [| a rest]; simpl; [discriminate |].
    intros E. injection E as ->. now left. }
  destruct (pointKind_cases body foodAt over p)
    as [[Hf ->] | [[Hf [Hh ->]] | [[Hf [Hh [Hin ->]]] | [Hf [Hin ->]]]]];
    repeat split; intros; try discriminate; try tauto;
    try (exfalso; tauto).
Qed.

Lemma gridCells_NoDup : NoDup gridCells.
Proof.
  rewrite <- cellPoint_cellIndices.
  apply NoDup_map_NoDup_ForallPairs.
  - intros index index' Hin Hin' E.
    apply cellIndices_range in Hin. apply cellIndices_range in Hin'.
    unfold cellPoint, GRID_SIZE in *. injection E as Ex Ey.
    Z.div_mod_to_equations. lia.
  - unfold cellIndices. apply NoDup_map_NoDup_ForallPairs.
    + intros n m _ _. apply Nat2Z.inj.
    + apply seq_NoDup.
Qed.

(** Of the cells of the grid, as many lie on a duplicate-free list of
    grid positions as the list is long. *)
Lemma filter_onSnake_length (l : Snake) :
  NoDup l ->
  Forall inBounds l ->
  List.length (filter (onSnake l) gridCells) = List.length l.
Proof.
  intros Hnd Hin. apply Permutation_length. apply NoDup_Permutation.
  - apply NoDup_filter, gridCells_NoDup.
  - assumption.
  - intros p. rewrite filter_In, onSnake_In. split; [tauto |].
    intros Hp. split; [| assumption]. apply gridCells_complete.
    rewrite Forall_forall in Hin. now apply Hin.
Qed.

Lemma boardKinds_gridCells (s : App) :
  boardKinds s
  = map (pointKind (snake s) (food s) (GameStatus_eqb (status s) GAME_OVER))
        gridCells.
Proof.
  unfold boardKinds. rewrite <- cellPoint_cellIndices, map_map. reflexivity.
Qed.

Lemma count_kinds (s : App) (test : CellKind -> bool) (l : Snake) :
  NoDup l ->
  Forall inBounds l ->
  (forall p,
      test (pointKind (snake s) (food s)
              (GameStatus_eqb (status s) GAME_OVER) p)
      = onSnake l p) ->
  List.length (filter test (boardKinds s)) = List.length l.
Proof.
  intros Hnd Hin Hext.
  rewrite boardKinds_gridCells, filter_map_swap, length_map.
  rewrite (filter_ext _ _ Hext). now apply filter_onSnake_length.
Qed.

(** X17.  The board of a reachable render shows all of the game: one
    cell is drawn as food, one as head, and as many as body as the snake
    has segments behind its head. *)
Theorem board_counts (s : App) :
  reachable s ->
  List.length (filter isFoodCell (boardKinds s)) = 1%nat
  /\ List.length (filter isHeadCell (boardKinds s)) = 1%nat
  /\ List.length (filter isBodyCell (boardKinds s))
     = (List.length (snake s) - 1)%nat.
Proof.
  intros Hreach.
  pose proof (reachable_Invariant s Hreach) as [Hlen Hbounds _ _].
  pose proof (reachable_Coherent s Hreach) as [Hfree Hfin Hnd _ _ _ _].
  destruct (snake s) as [| h t] eqn:Hsn; [simpl in Hlen; lia |].
  inversion Hnd as [| ? ? Hh Ht]; subst.
  inversion Hbounds as [| ? ? Hhb Htb]; subst.
  split; [| split].
  - apply (count_kinds s isFoodCell [food s]).
    + constructor; [intros [] | constructor].
    + constructor; [assumption | constructor].
    + intros p. rewrite Hsn. unfold pointKind, onSnake. simpl.
      destruct (samePoint (food s) p); [reflexivity |].
      now repeat match goal with |- context [if ?c then _ else _] => destruct c end.
  - apply (count_kinds s isHeadCell [h]).
    + constructor; [intros [] | constructor].
    + constructor; [assumption | constructor].
    + intros p. rewrite Hsn.
      destruct (pointKind_cases (h :: t) (food s)
                  (GameStatus_eqb (status s) GAME_OVER) p)
        as [[Hf ->] | [[Hf [Hhd ->]] | [[Hf [Hhd [Hin ->]]] | [Hf [Hin ->]]]]];
        unfold onSnake; simpl; rewrite orb_false_r; symmetry.
      * apply samePoint_neq. intros ->. apply Hfree. now left.
      * apply samePoint_eq. simpl in Hhd. congruence.
      * apply samePoint_neq. intros ->. now apply Hhd.
      * apply samePoint_neq. intros ->. apply Hin. now left.
  - replace (List.length (h :: t) - 1)%nat with (List.length t)
      by (simpl; lia).
    apply (count_kinds s isBodyCell t); [assumption | assumption |].
    intros p. rewrite Hsn.
    destruct (pointKind_cases (h :: t) (food s)
                (GameStatus_eqb (status s) GAME_OVER) p)
      as [[Hf ->] | [[Hf [Hhd ->]] | [[Hf [Hhd [Hin ->]]] | [Hf [Hin ->]]]]];
      simpl; symmetry.
    + apply onSnake_not_In. intros Hin. apply Hfree. subst p. now right.
    + apply onSnake_not_In. simpl in Hhd. injection Hhd as ->. assumption.
    + apply onSnake_In. destruct Hin as [-> | Hin]; [| assumption].
      now contradiction Hhd.
    + apply onSnake_not_In. intros Hin'. apply Hin. now right.
Qed.

Lemma board_counts_witness :
  List.length (filter isFoodCell (boardKinds firstTick)) = 1%nat
  /\ List.length (filter isHeadCell (boardKinds firstTick)) = 1%nat
  /\ List.length (filter isBodyCell (boardKinds firstTick))
     = (List.length (snake firstTick) - 1)%nat.
Proof.
  apply (board_counts firstTick). exact firstTick_reachable.
Defined.

(** ** The stored high score, there and back *)

Lemma parseDigits_step (c : ascii) (rest : string) (acc : option Z) (v : Z) :
  digitValue c = Some v ->
  parseDigits (String c rest) acc
  = parseDigits rest
      (Some (10 * match acc with Some a => a | None => 0 end + v)).
Proof. intros E. simpl. now rewrite E. Qed.

Lemma parseDigits_first (c : ascii) (rest : string) (v : Z) :
  digitValue c = Some v ->
  parseDigits (String c rest) None = parseDigits (String c rest) (Some 0).
Proof. intros E. simpl. now rewrite E. Qed.

(** [parseDigits] reads a string of decimal digits the way the
    library's [Nat.of_uint_acc] reads the digits themselves. *)
Lemma parseDigits_string_of_uint (d : Decimal.uint) :
  forall acc : nat,
    parseDigits (DecimalString.NilEmpty.string_of_uint d) (Some (Z.of_nat acc))
    = Some (Z.of_nat (Nat.of_uint_acc d acc)).
Proof.
  induction d as [| d IH | d IH | d IH | d IH | d IH | d IH | d IH | d IH
                 | d IH | d IH]; intros acc;
    cbn [DecimalString.NilEmpty.string_of_uint Nat.of_uint_acc];
    [reflexivity
    | rewrite (parseDigits_step _ _ _ 0) by reflexivity
    | rewrite (parseDigits_step _ _ _ 1) by reflexivity
    | rewrite (parseDigits_step _ _ _ 2) by reflexivity
    | rewrite (parseDigits_step _ _ _ 3) by reflexivity
    | rewrite (parseDigits_step _ _ _ 4) by reflexivity
    | rewrite (parseDigits_step _ _ _ 5) by reflexivity
    | rewrite (parseDigits_step _ _ _ 6) by reflexivity
    | rewrite (parseDigits_step _ _ _ 7) by reflexivity
    | rewrite (parseDigits_step _ _ _ 8) by reflexivity
    | rewrite (parseDigits_step _ _ _ 9) by reflexivity ];
    rewrite <- IH; do 2 f_equal; rewrite Nat.tail_mul_spec; lia.
Qed.

Lemma to_uint_nonnil (n : nat) : Nat.to_uint n <> Decimal.Nil.
Proof.
  rewrite <- (DecimalNat.Unsigned.of_to n) at 1.
  rewrite DecimalNat.Unsigned.to_of. unfold Decimal.unorm.
  destruct (Decimal.nzhead (Nat.to_uint n)); discriminate.
Qed.

Lemma parseDigits_NilZero (d : Decimal.uint) :
  d <> Decimal.Nil ->
  parseDigits (DecimalString.NilZero.string_of_uint d) None
  = Some (Z.of_nat (Nat.of_uint d)).
Proof.
  intros Hd. pose proof (parseDigits_string_of_uint d 0) as Hp.
  destruct d; [contradiction | ..];
    cbn [DecimalString.NilZero.string_of_uint
         DecimalString.NilEmpty.string_of_uint] in *;
    (erewrite parseDigits_first by reflexivity); exact Hp.
Qed.

Lemma parseInt_NilZero (d : Decimal.uint) :
  d <> Decimal.Nil ->
  parseInt (DecimalString.NilZero.string_of_uint d)
  = Num (Z.of_nat (Nat.of_uint d)).
Proof.
  intros Hd. pose proof (parseDigits_NilZero d Hd) as Hp.
  destruct d; [contradiction | ..]; unfold parseInt;
    cbn [DecimalString.NilZero.string_of_uint
         DecimalString.NilEmpty.string_of_uint] in *;
    cbn [trimStart];
    match goal with
    | |- context [isWhiteSpace ?c] => change (isWhiteSpace c) with false
    end;
    cbv iota; rewrite Hp; now rewrite Z.mul_1_l.
Qed.

Lemma parseInt_minus (str : string) :
  parseInt (String "-" str)
  = match parseDigits str None with
    | Some m => Num (- 1 * m)
    | None => NaN
    end.
Proof. reflexivity. Qed.

Lemma parseInt_toString (n : Z) : parseInt (toString n) = Num n.
Proof.
  destruct n as [| p | p]; unfold toString.
  - reflexivity.
  - rewrite parseInt_NilZero by apply to_uint_nonnil.
    rewrite DecimalNat.Unsigned.of_to. f_equal. lia.
  - rewrite parseInt_minus, parseDigits_NilZero by apply to_uint_nonnil.
    rewrite DecimalNat.Unsigned.of_to. f_equal. lia.
Qed.

Lemma toString_nonempty (n : Z) : exists c rest, toString n = String c rest.
Proof.
  destruct n as [| p | p]; unfold toString; [now eexists; eexists | | eauto].
  pose proof (to_uint_nonnil (Z.to_nat (Z.pos p))) as Hd.
  destruct (Nat.to_uint (Z.to_nat (Z.pos p))); [contradiction | ..];
    simpl; eauto.
Qed.

(** X18.  The high score survives the trip through the store, for the
    integers a JavaScript number holds exactly: the string the
    component writes for such a number parses back to it; a commit
    either leaves store and high score alone or raises the high score
    to the score and stores exactly the string of that score; and a
    component that mounts on the stored string of such a score that is
    not negative starts with that score as its high score. *)
Theorem stored_high_score_round_trip :
  (forall n : Z, safeInteger n -> parseInt (toString n) = Num n)
  /\
  (forall (prev next : App) (stored : option string),
      safeInteger (score next) ->
      commitStorage prev next stored = stored
      /\ highScore (commit prev next) = highScore next
      \/ commitStorage prev next stored = Some (toString (score next))
         /\ highScore (commit prev next) = Num (score next)
         /\ parseInt (toString (score next)) = Num (score next))
  /\
  (forall (n : Z) (fuel : nat) (rnd : Random) (k : nat) (s : App) (k' : nat),
      safeInteger n ->
      0 <= n ->
      mount fuel rnd k (Some (toString n)) = Some (s, k') ->
      highScore s = Num n).
Proof.
  split; [intros n _; apply parseInt_toString | split].
  - intros prev next stored _. unfold commitStorage, commit, updateHighScore.
    destruct ((score next =? score prev) && js_is (highScore next) (highScore prev));
      [now left |].
    destruct (js_gt (Num (score next)) (highScore next)); [| now left].
    right. split; [reflexivity |]. split; [reflexivity |].
    apply parseInt_toString.
  - intros n fuel rnd k s k' _ Hn. unfold mount.
    destruct (getRandomPosition fuel rnd k INITIAL_SNAKE) as [[newPos k''] |];
      [| discriminate].
    intros H. injection H as <- _.
    destruct (toString_nonempty n) as [c [rest E]].
    unfold loadHighScore. rewrite E, <- E, parseInt_toString.
    unfold commit, updateHighScore. simpl.
    destruct (n =? 0) eqn:E0; simpl.
    + apply Z.eqb_eq in E0. now subst.
    + replace (n <? 0) with false by (symmetry; apply Z.ltb_ge; lia).
      reflexivity.
Qed.

Lemma stored_high_score_round_trip_witness :
  parseInt (toString 3960) = Num 3960
  /\ (commitStorage midGame (setScore 10 midGame) None = None
      /\ highScore (commit midGame (setScore 10 midGame))
         = highScore (setScore 10 midGame)
      \/ commitStorage midGame (setScore 10 midGame) None
         = Some (toString (score (setScore 10 midGame)))
         /\ highScore (commit midGame (setScore 10 midGame))
            = Num (score (setScore 10 midGame))
         /\ parseInt (toString (score (setScore 10 midGame)))
            = Num (score (setScore 10 midGame)))
  /\ highScore (setHighScore (Num 3960) mounted) = Num 3960.
Proof.
  split; [| split].
  - apply (proj1 stored_high_score_round_trip 3960).
    unfold safeInteger. lia.
  - apply (proj1 (proj2 stored_high_score_round_trip) midGame
             (setScore 10 midGame) None).
    unfold safeInteger. simpl. lia.
  - apply (proj2 (proj2 stored_high_score_round_trip) 3960 1%nat zeros 0%nat
             (setHighScore (Num 3960) mounted) 2%nat).
    + unfold safeInteger. lia.
    + lia.
    + vm_compute. reflexivity.
Defined.

(** ** A game nobody steers *)

Lemma toWall_range (s : App) :
  Invariant s -> 1 <= toWall s <= GRID_SIZE.
Proof.
  intros [Hlen Hin _ _]. unfold toWall.
  destruct (snake s) as [| h t]; [simpl in Hlen; lia |].
  inversion Hin as [| ? ? [Hx Hy] _]; subst.
  destruct (direction s); lia.
Qed.

Lemma tick_toWall (fuel : nat) (rnd : Random) (k : nat) (s s' : App) (k' : nat) :
  Invariant s ->
  status s = PLAYING ->
  tick fuel rnd k s = Some (s', k') ->
  status s' = GAME_OVER
  \/ status s' = PLAYING /\ toWall s' = toWall s - 1.
Proof.
  intros Hinv Hst Htick. pose proof (inv_length s Hinv) as Hlen.
  apply tick_outcome in Htick. destruct Htick as [next [Hout ->]].
  unfold toWall. commit_fields.
  destruct Hout as [Hno | _ Hsn | h t _ _ _ | h t _ Hsn _ _ | h t f _ Hsn _ Hfood _].
  - contradiction.
  - rewrite Hsn in Hlen. simpl in Hlen. lia.
  - now left.
  - right.
    cbn [snake direction status setSnake applied setLastProcessedDirection].
    split; [assumption |]. rewrite Hsn.
    destruct (direction s); cbn [advance x y]; lia.
  - right.
    cbn [snake direction status setSnake setFood setSpeed setScore applied
         setLastProcessedDirection].
    split; [assumption |]. rewrite Hsn, <- Hfood.
    destruct (direction s); cbn [advance x y]; lia.
Qed.

Lemma ticks_over (n : nat) (s s' : App) :
  ticks n s s' -> status s = GAME_OVER -> status s' = GAME_OVER.
Proof.
  induction 1 as [s | n fuel rnd k s s' s'' k' _ Htick _ IH]; intros Hst.
  - assumption.
  - apply IH. unfold tick in Htick.
    rewrite moveSnake_not_playing in Htick by congruence.
    simpl in Htick. injection Htick as <- _. now commit_fields.
Qed.

Lemma ticks_end (n : nat) (s s' : App) :
  ticks n s s' ->
  Invariant s ->
  status s = PLAYING ->
  toWall s <= Z.of_nat n ->
  status s' = GAME_OVER.
Proof.
  induction 1 as [s | n fuel rnd k s s' s'' k' _ Htick Hrest IH];
    intros Hinv Hst Hn.
  - pose proof (toWall_range s Hinv). lia.
  - assert (Hinv' : Invariant s')
      by (apply (Invariant_dispatch fuel rnd k Timeout s s' k' Hinv Htick)).
    destruct (tick_toWall fuel rnd k s s' k' Hinv Hst Htick) as [Hover | [Hpl Hw]].
    + now apply (ticks_over n s' s'').
    + apply IH; [assumption | assumption | lia].
Qed.

Lemma ticks_reachable (n : nat) (s s' : App) :
  ticks n s s' -> reachable s -> reachable s'.
Proof.
  induction 1 as [s | n fuel rnd k s s' s'' k' Hdraws Htick _ IH];
    intros Hreach; [assumption |].
  apply IH. destruct (GameStatus_eqb (status s) PLAYING) eqn:Hplay.
  - now apply (reach_event rnd fuel k Timeout s s' k').
  - unfold tick in Htick. rewrite moveSnake_not_playing in Htick
      by (intros E; rewrite E in Hplay; discriminate).
    simpl in Htick. rewrite commit_idle in Htick by reflexivity.
    now injection Htick as <- _.
Qed.

Lemma gridCells_inBounds (p : Point) : In p gridCells -> inBounds p.
Proof.
  rewrite <- cellPoint_cellIndices, in_map_iff.
  intros [index [<- Hin]]. apply cellIndices_range in Hin.
  unfold inBounds, cellPoint, GRID_SIZE in *. simpl.
  Z.div_mod_to_equations. lia.
Qed.

(** A snake with fewer segments than the grid has cells leaves a cell
    free. *)
Lemma free_cell (body : Snake) :
  (List.length body < 400)%nat -> exists p, inBounds p /\ ~ In p body.
Proof.
  intros Hlen.
  destruct (existsb (fun p => negb (onSnake body p)) gridCells) eqn:E.
  - apply existsb_exists in E. destruct E as [p [Hin Hoff]].
    exists p. split; [now apply gridCells_inBounds |].
    apply onSnake_not_In. now destruct (onSnake body p).
  - exfalso.
    assert (Hincl : incl gridCells body).
    { intros p Hin. apply onSnake_In.
      destruct (onSnake body p) eqn:Hon; [reflexivity |].
      assert (Hex : existsb (fun q => negb (onSnake body q)) gridCells = true)
        by (apply existsb_exists; exists p; now rewrite Hon).
      congruence. }
    pose proof (NoDup_incl_length gridCells_NoDup Hincl) as Hle.
    rewrite gridCells_length in Hle. lia.
Qed.

Lemma getRandomPosition_cursor (rnd : Random) (body : Snake) (fuel : nat) :
  forall (k : nat) (p : Point) (k' : nat),
    getRandomPosition fuel rnd k body = Some (p, k') ->
    exists j, k' = (k + 2 * j)%nat.
Proof.
  induction fuel as [| fuel IH]; intros k p k' Hget; [discriminate |].
  rewrite getRandomPosition_round in Hget.
  destruct (onSnake body (proposal rnd k 0)); simpl in Hget.
  - apply IH in Hget. destruct Hget as [j ->]. exists (S j). lia.
  - injection Hget as _ <-. exists 1%nat. lia.
Qed.

Lemma thorough_shift (rnd : Random) (k fuel j : nat) :
  thorough rnd k fuel -> thorough rnd (k + 2 * j) fuel.
Proof.
  intros Hth j' body Hfree. destruct (Hth (j + j')%nat body Hfree) as [m [Hm Hoff]].
  exists m. split; [assumption |].
  now replace (k + 2 * j + 2 * j')%nat with (k + 2 * (j + j'))%nat by lia.
Qed.

(** With a thorough oracle a tick comes back, as long as the snake
    would not fill the grid by eating. *)
Lemma tick_total (fuel : nat) (rnd : Random) (k : nat) (s : App) :
  thorough rnd k fuel ->
  (status s = PLAYING -> (S (List.length (snake s)) < 400)%nat) ->
  exists s' j, tick fuel rnd k s = Some (s', (k + 2 * j)%nat).
Proof.
  intros Hth Hlen. unfold tick.
  assert (Hk : forall r, commitResult s (Some (r, k))
                         = Some (commit s r, (k + 2 * 0)%nat))
    by (intros r; simpl; now rewrite Nat.add_0_r).
  destruct (GameStatus_eqb (status s) PLAYING) eqn:Hplay.
  2: { rewrite moveSnake_not_playing
         by (intros E; rewrite E in Hplay; discriminate).
       eexists; exists 0%nat. apply Hk. }
  assert (Hst : status s = PLAYING)
    by (destruct (status s); now try discriminate).
  specialize (Hlen Hst).
  destruct (snake s) as [| h t] eqn:Hsn.
  { unfold moveSnake. rewrite Hplay, Hsn. cbv iota beta. simpl negb. cbv iota.
    eexists; exists 0%nat. apply Hk. }
  destruct (hitsWall (advance h (direction s))) eqn:Hwall.
  { rewrite (moveSnake_wall fuel rnd k s h t Hst Hsn Hwall).
    eexists; exists 0%nat. apply Hk. }
  destruct (hitsSelf (snake s) (advance h (direction s))) eqn:Hself.
  { rewrite (moveSnake_self fuel rnd k s h t Hst Hsn Hwall Hself).
    eexists; exists 0%nat. apply Hk. }
  destruct (samePoint (advance h (direction s)) (food s)) eqn:Hfood.
  - rewrite (moveSnake_growth fuel rnd k s h t Hst Hsn Hwall Hself Hfood).
    destruct (Hth 0%nat (advance h (direction s) :: snake s)) as [m [Hm Hoff]].
    { apply free_cell. rewrite Hsn. exact Hlen. }
    rewrite Nat.mul_0_r, Nat.add_0_r in Hoff. apply onSnake_not_In in Hoff.
    destruct (getRandomPosition_finds rnd _ m k fuel Hoff Hm)
      as [newFood [k' Hget]].
    rewrite Hget. destruct (getRandomPosition_cursor _ _ _ _ _ _ Hget) as [j ->].
    simpl. eexists; exists j. reflexivity.
  - rewrite (moveSnake_plain fuel rnd k s h t Hst Hsn Hwall Hself Hfood).
    eexists; exists 0%nat. apply Hk.
Qed.

Lemma tick_length (fuel : nat) (rnd : Random) (k : nat) (s s' : App) (k' : nat) :
  Invariant s ->
  tick fuel rnd k s = Some (s', k') ->
  (List.length (snake s') <= S (List.length (snake s)))%nat.
Proof.
  intros Hinv Htick. apply tick_outcome in Htick.
  destruct Htick as [next [Hout ->]]. commit_fields.
  destruct Hout as [_ | _ Hsn | h t _ _ _ | h t _ Hsn _ _ | h t f _ _ _ _ _];
    simpl; try lia.
  assert (Hne : snake s <> []) by (rewrite Hsn; discriminate).
  pose proof (removelast_length _ (snake s) Hne). lia.
Qed.

(** With a thorough oracle the ticks of a game nobody steers all come
    back, as long as the snake is short enough not to fill the grid on
    its way to the wall. *)
Lemma unsteered_total (fuel : nat) (rnd : Random) (n : nat) :
  unitDraws rnd ->
  forall (k : nat) (s : App),
    Invariant s ->
    Coherent s ->
    thorough rnd k fuel ->
    (status s = PLAYING ->
     Z.of_nat (List.length (snake s)) + toWall s < GRID_SIZE * GRID_SIZE) ->
    exists s' k', unsteered fuel rnd n k s = Some (s', k').
Proof.
  intros Hdraws. induction n as [| n IH]; intros k s Hinv Hcoh Hth Hroom.
  - now exists s, k.
  - pose proof (toWall_range s Hinv) as Hwall.
    destruct (tick_total fuel rnd k s Hth) as [s1 [j Htick]].
    { intros Hst. specialize (Hroom Hst). unfold GRID_SIZE in *. lia. }
    cbn [unsteered]. rewrite Htick. apply IH.
    + apply (Invariant_dispatch fuel rnd k Timeout s s1 _ Hinv Htick).
    + apply (Coherent_dispatch fuel rnd k Timeout s s1 _ Hdraws Hinv Hcoh Htick).
    + now apply thorough_shift.
    + intros Hst1.
      destruct (GameStatus_eqb (status s) PLAYING) eqn:Hplay.
      * assert (Hst : status s = PLAYING)
          by (destruct (status s); now try discriminate).
        pose proof (tick_length fuel rnd k s s1 _ Hinv Htick) as Hlen.
        destruct (tick_toWall fuel rnd k s s1 _ Hinv Hst Htick)
          as [Hover | [_ Hw]]; [congruence |].
        specialize (Hroom Hst). lia.
      * exfalso. unfold tick in Htick.
        rewrite moveSnake_not_playing in Htick
          by (intros E; rewrite E in Hplay; discriminate).
        simpl in Htick. injection Htick as <- _.
        rewrite commit_status in Hst1. rewrite Hst1 in Hplay. discriminate.
Qed.

Lemma unsteered_ticks (fuel : nat) (rnd : Random) (n : nat) :
  unitDraws rnd ->
  forall (k : nat) (s s' : App) (k' : nat),
    unsteered fuel rnd n k s = Some (s', k') -> ticks n s s'.
Proof.
  intros Hdraws. induction n as [| n IH]; intros k s s' k' Hrun.
  - injection Hrun as <- _. apply ticks_O.
  - cbn [unsteered] in Hrun.
    destruct (tick fuel rnd k s) as [[s1 k1] |] eqn:Htick; [| discriminate].
    apply (ticks_S n fuel rnd k s s1 s' k1 Hdraws Htick).
    now apply (IH k1 s1 s' k').
Qed.

(** X19.  A game nobody steers ends: from a reachable PLAYING render
    whose snake is short enough not to fill the grid on its way, and
    with a [Math.random] that proposes a free cell within the rounds
    allowed whenever there is one, as many ticks as the head is cells
    away from leaving the grid in the buffered direction (GRID_SIZE at
    most), or more, all come back and leave the game over. *)
Theorem unsteered_game_ends (fuel : nat) (rnd : Random) (k n : nat) (s : App) :
  reachable s ->
  status s = PLAYING ->
  unitDraws rnd ->
  thorough rnd k fuel ->
  Z.of_nat (List.length (snake s)) + toWall s < GRID_SIZE * GRID_SIZE ->
  toWall s <= Z.of_nat n ->
  (exists s' k',
      unsteered fuel rnd n k s = Some (s', k') /\ status s' = GAME_OVER)
  /\ toWall s <= GRID_SIZE.
Proof.
  intros Hreach Hst Hdraws Hth Hroom Hn.
  pose proof (reachable_Invariant s Hreach) as Hinv.
  pose proof (reachable_Coherent s Hreach) as Hcoh.
  split; [| apply (toWall_range s Hinv)].
  destruct (unsteered_total fuel rnd n Hdraws k s Hinv Hcoh Hth (fun _ => Hroom))
    as [s' [k' Hrun]].
  exists s', k'. split; [assumption |].
  apply (ticks_end n s s'); try assumption.
  now apply (unsteered_ticks fuel rnd n Hdraws k s s' k').
Qed.

Lemma sweep_unitDraws : unitDraws sweep.
Proof.
  intros i. unfold sweep.
  set (a := if Nat.even i then ((i / 2) mod 20)%nat else ((i / 2 / 20) mod 20)%nat).
  assert (Ha : (a < 20)%nat)
    by (unfold a; destruct (Nat.even i); apply Nat.mod_upper_bound; discriminate).
  split; unfold Qle, Qlt; simpl; lia.
Qed.

Lemma randomCoordinate_twentieth (a : nat) :
  randomCoordinate (Z.of_nat a # 20) = Z.of_nat a.
Proof.
  unfold randomCoordinate, GRID_SIZE, Qmult, inject_Z, Qfloor.
  cbn [Qnum Qden]. change (Z.pos (20 * 1)) with 20. apply Z.div_mul.
  discriminate.
Qed.

Lemma proposal_sweep (j m : nat) :
  proposal sweep (0 + 2 * j) m
  = {| x := Z.of_nat ((j + m) mod 20); y := Z.of_nat ((j + m) / 20 mod 20) |}.
Proof.
  unfold proposal.
  replace (0 + 2 * j + 2 * m)%nat with (2 * (j + m))%nat by lia.
  set (c := (j + m)%nat).
  assert (He : sweep (2 * c)%nat = (Z.of_nat (c mod 20) # 20)%Q).
  { unfold sweep. rewrite Nat.even_mul.
    change (Nat.even 2 || Nat.even c) with true. cbv iota.
    now rewrite (Nat.mul_comm 2 c), Nat.div_mul by discriminate. }
  assert (Ho : sweep (2 * c + 1)%nat = (Z.of_nat (c / 20 mod 20) # 20)%Q).
  { unfold sweep. rewrite Nat.even_add, Nat.even_mul.
    change (Bool.eqb (Nat.even 2 || Nat.even c) (Nat.even 1)) with false.
    cbv iota.
    replace ((2 * c + 1) / 2)%nat with c; [reflexivity |].
    apply (Nat.div_unique _ 2 c 1); lia. }
  now rewrite He, Ho, !randomCoordinate_twentieth.
Qed.

Lemma sweep_thorough : thorough sweep 0 400.
Proof.
  intros j body [[px py] [[Hx Hy] Hoff]]. unfold GRID_SIZE in *. simpl in Hx, Hy.
  set (idx := Z.to_nat (py * 20 + px)).
  set (m := ((idx + 400 - j mod 400) mod 400)%nat).
  exists m. split; [apply Nat.mod_upper_bound; discriminate |].
  assert (Hc : exists K : Z, Z.of_nat (j + m) = py * 20 + px + 400 * K).
  { pose proof (Nat.div_mod_eq j 400) as E1.
    pose proof (Nat.mod_upper_bound j 400 ltac:(discriminate)) as B1.
    pose proof (Nat.div_mod_eq (idx + 400 - j mod 400) 400) as E2.
    fold m in E2.
    exists (Z.of_nat (j / 400) + 1
            - Z.of_nat ((idx + 400 - j mod 400) / 400)).
    set (q1 := (j / 400)%nat) in *. set (r1 := (j mod 400)%nat) in *.
    set (q2 := ((idx + 400 - r1) / 400)%nat) in *.
    assert (Hidx : Z.of_nat idx = py * 20 + px) by (unfold idx; lia).
    lia. }
  destruct Hc as [K HK]. rewrite proposal_sweep.
  replace {| x := Z.of_nat ((j + m) mod 20);
             y := Z.of_nat ((j + m) / 20 mod 20) |}
    with (mkPoint px py); [assumption |].
  f_equal.
  - rewrite Nat2Z.inj_mod, HK. Z.div_mod_to_equations. lia.
  - rewrite Nat2Z.inj_mod, Nat2Z.inj_div, HK. Z.div_mod_to_equations. lia.
Qed.

Lemma unsteered_game_ends_witness :
  (exists s' k',
      unsteered 400 sweep 11 0 started = Some (s', k')
      /\ status s' = GAME_OVER)
  /\ toWall started <= GRID_SIZE.
Proof.
  apply (unsteered_game_ends 400 sweep 0 11 started).
  - exact started_reachable.
  - reflexivity.
  - exact sweep_unitDraws.
  - exact sweep_thorough.
  - vm_compute. reflexivity.
  - vm_compute. discriminate.
Defined.

Lemma started_crashed : ticks 11 started crashed.
Proof.
  do 11 (eapply (ticks_S _ 0%nat zeros 0%nat);
         [exact zeros_unitDraws
         | match goal with
          | |- ?run = _ =>
              let r := eval vm_compute in run in change run with r
          end; reflexivity |]).
  apply ticks_O.
Defined.

(** ** After the game is over *)

(** X20.  A lost game stays on the board until a new one is started:
    in a GAME_OVER render whatever can happen either keeps snake, food,
    score, speed and high score, and the status GAME_OVER, or is a
    start (Space or the button) and leaves the render of a new game
    with the high score kept. *)
Theorem game_over_frozen (fuel : nat) (rnd : Random) (k : nat) (e : Event)
    (s s' : App) (k' : nat) :
  reachable s ->
  status s = GAME_OVER ->
  enabled e s = true ->
  dispatch fuel rnd k e s = Some (s', k') ->
  handled s s' /\ status s' = GAME_OVER /\ k' = k
  \/ exists newFood, s' = newGame newFood (highScore s).
Proof.
  intros Hreach Hst Hen Hstep.
  pose proof (reachable_score_nonneg s Hreach) as Hpos.
  pose proof (reachable_scoreBelowHigh s Hreach) as Hhigh.
  unfold scoreBelowHigh in Hhigh.
  assert (Hnew : forall newFood,
             commit s (newGame newFood (highScore s))
             = newGame newFood (highScore s)).
  { intros newFood.
    assert (Hgt : js_gt (Num (score (newGame newFood (highScore s))))
                        (highScore (newGame newFood (highScore s))) = false).
    { simpl. destruct (highScore s) as [h |]; simpl; [| reflexivity].
      apply Z.ltb_ge. specialize (Hhigh h eq_refl). lia. }
    unfold commit, updateHighScore. rewrite Hgt.
    now destruct ((score (newGame newFood (highScore s)) =? score s)
                  && js_is (highScore (newGame newFood (highScore s)))
                           (highScore s)). }
  assert (Hkeep : forall next,
             handled s next ->
             handled s (commit s next) /\ status (commit s next) = GAME_OVER).
  { intros next Hh.
    rewrite commit_idle
      by (apply (h_score s next Hh) || apply (h_highScore s next Hh)).
    split; [assumption |].
    destruct (h_status s next Hh) as [E | [[E _] | [[E _] | [E _]]]];
      congruence. }
  destruct e as [key code | d | |]; simpl in Hstep, Hen.
  - destruct (handleKeyDown fuel rnd k key code s) as [[next k''] |] eqn:Hkey;
      [| discriminate].
    simpl in Hstep. injection Hstep as <- <-.
    apply handleKeyDown_handled in Hkey.
    destruct Hkey as [[Hh ->] | [_ [newFood [_ ->]]]].
    + left. destruct (Hkeep next Hh). auto.
    + right. exists newFood. apply Hnew.
  - injection Hstep as <- <-. left.
    destruct (Hkeep _ (handleDirection_handled d s)). auto.
  - destruct (startGame fuel rnd k s) as [[next k''] |] eqn:Hstart;
      [| discriminate].
    simpl in Hstep. injection Hstep as <- _.
    apply startGame_newGame in Hstart. destruct Hstart as [newFood ->].
    right. exists newFood. apply Hnew.
  - rewrite Hst in Hen. discriminate.
Qed.

Lemma game_over_frozen_witness :
  handled crashed (setDirection UP crashed)
  /\ status (setDirection UP crashed) = GAME_OVER /\ 0%nat = 0%nat
  \/ exists newFood,
       setDirection UP crashed = newGame newFood (highScore crashed).
Proof.
  apply (game_over_frozen 0 zeros 0 (DPad UP) crashed
           (setDirection UP crashed) 0).
  - exact (ticks_reachable 11 started crashed started_crashed
             started_reachable).
  - reflexivity.
  - reflexivity.
  - reflexivity.
Defined.

(** ** What a tick leaves alone *)

(** X21.  A tick never changes the buffered direction; in a PLAYING
    render with a snake it records that direction as the applied one,
    and the food stays where it is unless the head moves onto it. *)
Theorem tick_frame (fuel : nat) (rnd : Random) (k : nat) (s s' : App)
    (k' : nat) :
  tick fuel rnd k s = Some (s', k') ->
  direction s' = direction s
  /\ (status s = PLAYING -> lastProcessedDirection s' = direction s)
  /\ (food s' = food s
      \/ status s = PLAYING
         /\ exists currentHead rest,
              snake s = currentHead :: rest
              /\ advance currentHead (direction s) = food s).
Proof.
  intros Htick. apply tick_outcome in Htick.
  destruct Htick as [next [Hout ->]]. commit_fields.
  destruct Hout as [Hno | _ _ | h t _ _ _ | h t _ _ _ _ | h t f Hst Hsn _ Hfood _];
    simpl; (split; [reflexivity |]); (split; [try reflexivity |]);
    try (now left); try contradiction.
  right. split; [assumption |]. now exists h, t.
Qed.

Lemma tick_frame_witness :
  direction fed = direction midGame
  /\ (status midGame = PLAYING -> lastProcessedDirection fed = direction midGame)
  /\ (food fed = food midGame
      \/ status midGame = PLAYING
         /\ exists currentHead rest,
              snake midGame = currentHead :: rest
              /\ advance currentHead (direction midGame) = food midGame).
Proof.
  apply (tick_frame 1 zeros 0 midGame fed 2). reflexivity.
Defined.

(** ** Ticks that eat *)

Lemma ahead_unitDraws : unitDraws ahead.
Proof.
  intros i. unfold ahead. destruct (i =? 0)%nat;
    (split; [discriminate | reflexivity]).
Qed.

Lemma midGame_reachable : reachable midGame.
Proof.
  apply (reach_event zeros 0 2 (KeyDown "ArrowUp" "ArrowUp")
           (setFood (mkPoint 10 9) firstRender) midGame 2);
    [| exact zeros_unitDraws | reflexivity | reflexivity].
  apply (reach_mount ahead 1 0 None (setFood (mkPoint 10 9) firstRender) 2);
    [exact ahead_unitDraws | reflexivity].
Defined.

(** In a reachable PLAYING render whose head is about to move onto the
    food, the tick is the eating branch of [moveSnake], committed: it
    comes back exactly when [getRandomPosition] does for the grown
    snake. *)
Lemma reachable_tick_eats (fuel : nat) (rnd : Random) (k : nat) (s : App)
    (currentHead : Point) (rest : Snake) :
  reachable s ->
  status s = PLAYING ->
  snake s = currentHead :: rest ->
  advance currentHead (direction s) = food s ->
  tick fuel rnd k s =
  match getRandomPosition fuel rnd k (food s :: snake s) with
  | Some (newFood, k') =>
      Some (commit s
              (setSnake (food s :: snake s)
                 (setFood newFood
                    (setSpeed (Z.max MIN_SPEED (speed s - SPEED_DECREMENT))
                       (setScore (score s + 10) (applied s))))), k')
  | None => None
  end.
Proof.
  intros Hreach Hst Hsn Hfood.
  pose proof (reachable_Coherent s Hreach) as Hcoh.
  assert (Hwall : hitsWall (advance currentHead (direction s)) = false)
    by (rewrite Hfood; apply hitsWall_inBounds, (coh_food_in s Hcoh)).
  assert (Hself : hitsSelf (snake s) (advance currentHead (direction s)) = false).
  { rewrite Hfood. apply hitsSelf_not_In. intros Hin.
    apply (coh_food_free s Hcoh). now apply In_removelast. }
  assert (Hsame : samePoint (advance currentHead (direction s)) (food s) = true)
    by (rewrite Hfood; apply samePoint_refl).
  unfold tick.
  rewrite (moveSnake_growth fuel rnd k s currentHead rest Hst Hsn Hwall Hself
             Hsame).
  rewrite Hfood.
  now destruct (getRandomPosition fuel rnd k (food s :: snake s))
    as [[newFood k'] |].
Qed.

(** C6.  A game starts at INITIAL_SPEED; through the events of a game
    the speed never rises and never falls below MIN_SPEED; an event
    changes it only when it is a tick that eats; and a tick that eats
    replaces the speed [v] by [max(MIN_SPEED, v - SPEED_DECREMENT)]:
    whatever such a tick produces has that speed, and it does produce a
    render as soon as [Math.random] proposes a cell off the grown snake
    within the rounds allowed. *)
Theorem speed_ramp :
  (forall (s : App) (fuel : nat) (rnd : Random) (k : nat) (e : Event)
          (s' : App) (k' : nat),
      reachable s ->
      status s = IDLE \/ status s = GAME_OVER ->
      dispatch fuel rnd k e s = Some (s', k') ->
      status s' = PLAYING ->
      speed s' = INITIAL_SPEED)
  /\
  (forall s s' : App,
      reachable s -> sameGame s s' -> MIN_SPEED <= speed s' <= speed s)
  /\
  (forall (s : App) (fuel : nat) (rnd : Random) (k : nat) (e : Event)
          (s' : App) (k' : nat),
      reachable s ->
      status s <> GAME_OVER ->
      enabled e s = true ->
      dispatch fuel rnd k e s = Some (s', k') ->
      speed s' = speed s
      \/ e = Timeout
         /\ (exists currentHead rest,
                snake s = currentHead :: rest
                /\ advance currentHead (direction s) = food s)
         /\ speed s' = Z.max MIN_SPEED (speed s - SPEED_DECREMENT))
  /\
  (forall (s : App) (fuel : nat) (rnd : Random) (k : nat)
          (currentHead : Point) (rest : Snake),
      reachable s ->
      status s = PLAYING ->
      snake s = currentHead :: rest ->
      advance currentHead (direction s) = food s ->
      (forall s' k',
          tick fuel rnd k s = Some (s', k') ->
          speed s' = Z.max MIN_SPEED (speed s - SPEED_DECREMENT))
      /\
      (forall n : nat,
          ~ In (proposal rnd k n) (food s :: snake s) ->
          (n < fuel)%nat ->
          exists s' k',
            tick fuel rnd k s = Some (s', k')
            /\ speed s' = Z.max MIN_SPEED (speed s - SPEED_DECREMENT))).
Proof.
  split; [| split; [| split]].
  - intros s fuel rnd k e s' k' Hreach Hst Hstep Hplay.
    apply reachable_Invariant in Hreach.
    now destruct (dispatch_start fuel rnd k e s s' k' Hreach Hst Hstep Hplay)
      as [_ [Hspeed _]].
  - intros s s' Hreach Hgame.
    induction Hgame as [s | rnd fuel k e s s' s'' k' Hgame IH Hover Hfair Hen Hstep].
    + apply reachable_Invariant in Hreach. destruct Hreach. lia.
    + specialize (IH Hreach).
      assert (Hinv : Invariant s')
        by (apply reachable_Invariant; now apply (sameGame_reachable s)).
      destruct (dispatch_speed fuel rnd k e s' s'' k' Hinv Hover Hen Hstep)
        as [-> | [_ [_ ->]]];
        unfold MIN_SPEED, SPEED_DECREMENT in *; lia.
  - intros s fuel rnd k e s' k' Hreach Hover Hen Hstep.
    apply reachable_Invariant in Hreach.
    now apply (dispatch_speed fuel rnd k e s s' k').
  - intros s fuel rnd k currentHead rest Hreach Hst Hsn Hfood.
    pose proof (reachable_tick_eats fuel rnd k s currentHead rest Hreach Hst
                  Hsn Hfood) as Heats.
    split.
    + intros s' k' Htick. rewrite Heats in Htick.
      destruct (getRandomPosition fuel rnd k (food s :: snake s))
        as [[newFood k''] |]; [| discriminate].
      injection Htick as <- _. now commit_fields.
    + intros n Hfree Hfuel. apply onSnake_not_In in Hfree.
      destruct (getRandomPosition_finds rnd _ n k fuel Hfree Hfuel)
        as [newFood [k' Hget]].
      rewrite Heats, Hget. eexists; eexists; split; [reflexivity |].
      now commit_fields.
Qed.

Lemma speed_ramp_witness :
  speed started = INITIAL_SPEED /\
  MIN_SPEED <= speed firstTick <= speed mounted /\
  (speed firstTick = speed started
   \/ Timeout = Timeout
      /\ (exists currentHead rest,
             snake started = currentHead :: rest
             /\ advance currentHead (direction started) = food started)
      /\ speed firstTick = Z.max MIN_SPEED (speed started - SPEED_DECREMENT))
  /\ speed fed = Z.max MIN_SPEED (speed midGame - SPEED_DECREMENT)
  /\ (exists s' k',
         tick 1 zeros 0 midGame = Some (s', k')
         /\ speed s' = Z.max MIN_SPEED (speed midGame - SPEED_DECREMENT)).
Proof.
  split; [| split; [| split; [| split]]].
  - apply (proj1 speed_ramp mounted 0%nat zeros 2%nat
             (KeyDown "ArrowLeft" "ArrowLeft") started 2%nat).
    + exact mounted_reachable.
    + left. reflexivity.
    + reflexivity.
    + reflexivity.
  - apply (proj1 (proj2 speed_ramp) mounted firstTick).
    + exact mounted_reachable.
    + exact mounted_firstTick.
  - apply (proj1 (proj2 (proj2 speed_ramp)) started 0%nat zeros 2%nat Timeout
             firstTick 2%nat).
    + exact started_reachable.
    + discriminate.
    + reflexivity.
    + reflexivity.
  - apply (proj1 (proj2 (proj2 (proj2 speed_ramp)) midGame 1%nat zeros 0%nat
                   (mkPoint 10 10) [mkPoint 10 11; mkPoint 10 12]
                   midGame_reachable eq_refl eq_refl eq_refl)
             fed 2%nat).
    reflexivity.
  - apply (proj2 (proj2 (proj2 (proj2 speed_ramp)) midGame 1%nat zeros 0%nat
                   (mkPoint 10 10) [mkPoint 10 11; mkPoint 10 12]
                   midGame_reachable eq_refl eq_refl eq_refl)
             0%nat).
    + apply onSnake_not_In. reflexivity.
    + lia.
Defined.

(** C10.  In every reachable render the snake has at least 3 segments;
    a game starts from the 3-segment seed; a tick leaves the length as
    it is or, when it eats, makes it one longer; a tick that does not
    eat keeps the length; and a tick that eats makes the snake one
    longer: whatever such a tick produces is one longer, and it does
    produce a render as soon as [Math.random] proposes a cell off the
    grown snake within the rounds allowed. *)
Theorem reachable_snake_length (s : App) :
  reachable s ->
  (3 <= List.length (snake s))%nat
  /\
  (forall (fuel : nat) (rnd : Random) (k : nat) (e : Event) (s' : App) (k' : nat),
      status s = IDLE \/ status s = GAME_OVER ->
      dispatch fuel rnd k e s = Some (s', k') ->
      status s' = PLAYING ->
      snake s' = INITIAL_SNAKE)
  /\
  (forall (fuel : nat) (rnd : Random) (k : nat) (s' : App) (k' : nat),
      tick fuel rnd k s = Some (s', k') ->
      List.length (snake s') = List.length (snake s)
      \/ List.length (snake s') = S (List.length (snake s))
         /\ exists currentHead rest,
              snake s = currentHead :: rest
              /\ advance currentHead (direction s) = food s)
  /\
  (forall (fuel : nat) (rnd : Random) (k : nat) (currentHead : Point)
          (rest : Snake) (s' : App) (k' : nat),
      snake s = currentHead :: rest ->
      advance currentHead (direction s) <> food s ->
      tick fuel rnd k s = Some (s', k') ->
      List.length (snake s') = List.length (snake s))
  /\
  (forall (fuel : nat) (rnd : Random) (k : nat) (currentHead : Point)
          (rest : Snake),
      status s = PLAYING ->
      snake s = currentHead :: rest ->
      advance currentHead (direction s) = food s ->
      (forall s' k',
          tick fuel rnd k s = Some (s', k') ->
          snake s' = food s :: snake s
          /\ List.length (snake s') = S (List.length (snake s)))
      /\
      (forall n : nat,
          ~ In (proposal rnd k n) (food s :: snake s) ->
          (n < fuel)%nat ->
          exists s' k',
            tick fuel rnd k s = Some (s', k')
            /\ snake s' = food s :: snake s
            /\ List.length (snake s') = S (List.length (snake s)))).
Proof.
  intros Hreach0. pose proof (reachable_Invariant s Hreach0) as Hreach.
  split; [exact (inv_length s Hreach) | split; [| split; [| split]]].
  - intros fuel rnd k e s' k' Hst Hstep Hplay.
    now destruct (dispatch_start fuel rnd k e s s' k' Hreach Hst Hstep Hplay)
      as [Hsnake _].
  - intros fuel rnd k s' k' Htick. apply tick_outcome in Htick.
    destruct Htick as [next [Hout ->]]. commit_fields.
    destruct Hout as [_ | _ Hsn | h t _ _ _ | h t _ Hsn _ _ | h t f _ Hsn _ Hfood _].
    + now left.
    + pose proof (inv_length s Hreach) as Hlen. rewrite Hsn in Hlen.
      simpl in Hlen. lia.
    + now left.
    + left. simpl.
      apply removelast_length. rewrite Hsn. discriminate.
    + right. split; [reflexivity |]. now exists h, t.
  - intros fuel rnd k currentHead rest s' k' Hsn Hfood Htick.
    apply tick_outcome in Htick.
    destruct Htick as [next [Hout ->]]. commit_fields.
    destruct Hout as [_ | _ Hsn' | h t _ _ _ | h t _ Hsn' _ _ | h t f _ Hsn' _ Hfood' _].
    + reflexivity.
    + congruence.
    + reflexivity.
    + simpl. apply removelast_length. rewrite Hsn. discriminate.
    + rewrite Hsn in Hsn'. injection Hsn' as <- _. contradiction.
  - intros fuel rnd k currentHead rest Hst Hsn Hfood.
    pose proof (reachable_tick_eats fuel rnd k s currentHead rest Hreach0 Hst
                  Hsn Hfood) as Heats.
    split.
    + intros s' k' Htick. rewrite Heats in Htick.
      destruct (getRandomPosition fuel rnd k (food s :: snake s))
        as [[newFood k''] |]; [| discriminate].
      injection Htick as <- _. commit_fields. now split.
    + intros n Hfree Hfuel. apply onSnake_not_In in Hfree.
      destruct (getRandomPosition_finds rnd _ n k fuel Hfree Hfuel)
        as [newFood [k' Hget]].
      rewrite Heats, Hget. eexists; eexists; split; [reflexivity |].
      commit_fields. now split.
Qed.

Lemma reachable_snake_length_witness :
  snake started = INITIAL_SNAKE
  /\ (3 <= List.length (snake midGame))%nat
  /\ List.length (snake firstTick) = List.length (snake started)
  /\ (snake fed = food midGame :: snake midGame
      /\ List.length (snake fed) = S (List.length (snake midGame)))
  /\ (exists s' k',
         tick 1 zeros 0 midGame = Some (s', k')
         /\ snake s' = food midGame :: snake midGame
         /\ List.length (snake s') = S (List.length (snake midGame))).
Proof.
  split; [| split; [| split; [| split]]].
  - apply (proj1 (proj2 (reachable_snake_length mounted mounted_reachable))
             0%nat zeros 2%nat (KeyDown "ArrowLeft" "ArrowLeft") started 2%nat).
    + left. reflexivity.
    + reflexivity.
    + reflexivity.
  - apply (proj1 (reachable_snake_length midGame midGame_reachable)).
  - apply (proj1 (proj2 (proj2 (proj2
             (reachable_snake_length started started_reachable))))
             0%nat zeros 2%nat (mkPoint 10 10) [mkPoint 10 11; mkPoint 10 12]
             firstTick 2%nat).
    + reflexivity.
    + discriminate.
    + reflexivity.
  - apply (proj1 (proj2 (proj2 (proj2 (proj2
             (reachable_snake_length midGame midGame_reachable))))
             1%nat zeros 0%nat (mkPoint 10 10) [mkPoint 10 11; mkPoint 10 12]
             eq_refl eq_refl eq_refl)
             fed 2%nat).
    reflexivity.
  - apply (proj2 (proj2 (proj2 (proj2 (proj2
             (reachable_snake_length midGame midGame_reachable))))
             1%nat zeros 0%nat (mkPoint 10 10) [mkPoint 10 11; mkPoint 10 12]
             eq_refl eq_refl eq_refl)
             0%nat).
    + apply onSnake_not_In. reflexivity.
    + lia.
Defined.
